(** * Amadeus hotel client and offer flattening: a shallow embedding

    The development follows the two Python modules of the repository,
    [hotels/amadeus_client.py] (token handling, retry loops, chunked offer
    fetching) and [hotels/flatten.py] (raw JSON to flat rows).

    - [Py] is the fragment of the Python runtime both modules rely on: JSON
      values as [json.loads] produces them, truthiness, the dynamically
      typed accessors with the exceptions they raise, [str.isdigit],
      [int], [range], slices and [datetime.date].  The builtins are
      modelled with the limits they have: [int] refuses digit strings
      longer than 4300 characters, [time.sleep] refuses negative and very
      large durations, [json()] fails on a body that is not JSON, and the
      strings [date.fromisoformat] reads depend on the Python version.
    - [amadeus_client] embeds the client in a small state-and-exception
      monad.  The state is the client object together with the history of
      what its HTTP session and the clock were asked to do.
    - [flatten] embeds [flatten_offers] in the exception monad. *)

From Stdlib Require Import ZArith String Ascii List Lia SpecFloat.
From stdpp Require Import base option list gmap strings.

Set Warnings "-register-all".
#[local] Open Scope string_scope.
#[local] Open Scope list_scope.
#[local] Open Scope Z_scope.

(* ================================================================== *)
(** * The Python runtime fragment *)
(* ================================================================== *)

Module Py.

(** Values of [json.loads]: [None], [bool], [int], [float], [str], [list]
    and [dict] with string keys. *)
Inductive Json : Type :=
| JNull
| JBool (b : bool)
| JInt (z : Z)
| JFloat (f : spec_float)
| JStr (s : string)
| JArr (l : list Json)
| JObj (m : gmap string Json).

(** Failure payloads.  The source formats them into the exception message;
    the embedding keeps the formatted parts apart.
    - [f"Auth request failed: {resp.status_code} {resp.text[:500]}"]
    - ["Auth failed after retries."]
    - [f"Missing access_token in response: {data}"]
    - [f"GET {url} failed: {resp.status_code} {resp.text[:500]}"]
    - [f"GET {url} failed after retries."] *)
Inductive AuthFailure : Type :=
| AuthRequestFailed (status : Z) (excerpt : string)
| AuthFailedAfterRetries
| MissingAccessToken (data : Json).

Inductive GetFailure : Type :=
| GetFailed (url : string) (status : Z) (excerpt : string)
| GetFailedAfterRetries (url : string).

Inductive Exn : Type :=
| TypeError
| AttributeError
| KeyError
| ValueError
| OverflowError
| JSONDecodeError
| AmadeusAuthError (why : AuthFailure)
| AmadeusRateLimitError
| RuntimeError (why : GetFailure).

Inductive Outcome (A : Type) : Type :=
| Ok (a : A)
| Raise (e : Exn).
Arguments Ok {A} a.
Arguments Raise {A} e.

Definition obind {A B} (o : Outcome A) (k : A -> Outcome B) : Outcome B :=
  match o with
  | Ok a => k a
  | Raise e => Raise e
  end.

(** [for x in xs: acc = body(acc, x)], stopping at the first exception. *)
Fixpoint ofold {A B} (body : B -> A -> Outcome B) (acc : B) (xs : list A)
  : Outcome B :=
  match xs with
  | [] => Ok acc
  | x :: rest => obind (body acc x) (fun acc' => ofold body acc' rest)
  end.

(** ** Truthiness ([bool(x)]) *)
Definition float_is_zero (f : spec_float) : bool :=
  match f with
  | S754_zero _ => true
  | _ => false
  end.

Definition truthy (j : Json) : bool :=
  match j with
  | JNull => false
  | JBool b => b
  | JInt z => negb (z =? 0)
  | JFloat f => negb (float_is_zero f)
  | JStr s => negb (bool_decide (s = ""))
  | JArr l => negb (bool_decide (l = []))
  | JObj m => negb (bool_decide (m = ∅))
  end.

(** [j == s] for a string literal [s]: only an equal [str] compares equal. *)
Definition eq_str (j : Json) (s : string) : bool :=
  match j with
  | JStr t => bool_decide (t = s)
  | _ => false
  end.

(** ** Dynamically typed accessors *)

(** [obj.get(key)] and [obj.get(key, dflt)]: only [dict] has [get]. *)
Definition get_or (obj : Json) (key : string) (dflt : Json) : Outcome Json :=
  match obj with
  | JObj m => Ok (default dflt (m !! key))
  | _ => Raise AttributeError
  end.

Definition get (obj : Json) (key : string) : Outcome Json :=
  get_or obj key JNull.

(** [dict.get] on a value already known to be a [dict]. *)
Definition dict_get (m : gmap string Json) (key : string) : Json :=
  default JNull (m !! key).

Fixpoint chars (s : string) : list Json :=
  match s with
  | EmptyString => []
  | String c rest => JStr (String c EmptyString) :: chars rest
  end.

(** [iter(x)]: the elements of a list, the characters of a string, the
    keys of a dict; anything else is not iterable.  (An iterated dict yields
    plain strings, on which every loop body of [flatten_offers] raises at
    once, so the order of the keys does not matter.) *)
Definition iter (j : Json) : Outcome (list Json) :=
  match j with
  | JArr l => Ok l
  | JStr s => Ok (chars s)
  | JObj m => Ok (JStr <$> (map_to_list m).*1)
  | _ => Raise TypeError
  end.

Definition is_substring (needle hay : string) : bool :=
  match String.index 0 needle hay with
  | Some _ => true
  | None => false
  end.

(** [key in container] for a string [key]. *)
Definition contains (container : Json) (key : string) : Outcome bool :=
  match container with
  | JObj m => Ok (bool_decide (is_Some (m !! key)))
  | JArr l => Ok (existsb (fun x => eq_str x key) l)
  | JStr s => Ok (is_substring key s)
  | _ => Raise TypeError
  end.

(** [container[key]] for a string [key]. *)
Definition getitem (container : Json) (key : string) : Outcome Json :=
  match container with
  | JObj m =>
      match m !! key with
      | Some v => Ok v
      | None => Raise KeyError
      end
  | _ => Raise TypeError
  end.

(** ** Strings and numbers *)

(** Characters are the 8-bit code points U+0000..U+00FF, which is what the
    HTTP stack hands over for header values (ISO-8859-1 decoding). *)
Definition is_ascii_digit (c : ascii) : bool :=
  let n := N_of_ascii c in ((48 <=? n) && (n <=? 57))%N.

(** [c.isdigit()]: besides 0-9 the superscripts U+00B2, U+00B3 and U+00B9
    are digits for [str.isdigit] (they are not decimal characters). *)
Definition char_isdigit (c : ascii) : bool :=
  let n := N_of_ascii c in
  (is_ascii_digit c || (n =? 178) || (n =? 179) || (n =? 185))%N.

Fixpoint all_chars (p : ascii -> bool) (s : string) : bool :=
  match s with
  | EmptyString => true
  | String c rest => p c && all_chars p rest
  end.

(** [s.isdigit()]: every character is a digit and there is at least one. *)
Definition isdigit (s : string) : bool :=
  negb (bool_decide (s = "")) && all_chars char_isdigit s.

Definition digit_value (c : ascii) : Z := Z.of_N (N_of_ascii c) - 48.

Fixpoint decimal_from (acc : Z) (s : string) : Z :=
  match s with
  | EmptyString => acc
  | String c rest => decimal_from (10 * acc + digit_value c) rest
  end.

(** [sys.get_int_max_str_digits()]: the longest digit string [int]
    converts (leading zeros count). *)
Definition INT_MAX_STR_DIGITS : Z := 4300.

(** [int(s)] on a string of digit characters (its one call site is guarded
    by [isdigit]): the decimal value when every character is 0-9 and there
    are at most [INT_MAX_STR_DIGITS] of them, and [ValueError] otherwise, in
    particular on the superscript digits. *)
Definition int_of_str (s : string) : Outcome Z :=
  if negb (bool_decide (s = "")) && all_chars is_ascii_digit s
     && (Z.of_nat (String.length s) <=? INT_MAX_STR_DIGITS)
  then Ok (decimal_from 0 s)
  else Raise ValueError.

(** [range(start, stop)] *)
Definition range (start stop : Z) : list Z :=
  (fun k => start + Z.of_nat k) <$> seq 0 (Z.to_nat (stop - start)).

(** [range(0, stop, step)] on naturals; a zero step raises [ValueError]. *)
Definition range_step (stop step : nat) : Outcome (list nat) :=
  match step with
  | O => Raise ValueError
  | S _ => Ok ((fun k => k * step)%nat <$> seq 0 ((stop + step - 1) / step)%nat)
  end.

(** [seq[i : j]] for [0 <= i]. *)
Definition slice {A} (l : list A) (i j : nat) : list A :=
  take (j - i) (drop i l).

(** ** [datetime.date] *)

Record date : Type := { year : Z; month : Z; day : Z }.

Definition is_leap (y : Z) : bool :=
  (y mod 4 =? 0) && (negb (y mod 100 =? 0) || (y mod 400 =? 0)).

Definition days_in_month (y m : Z) : Z :=
  if m =? 2 then (if is_leap y then 29 else 28)
  else if (m =? 4) || (m =? 6) || (m =? 9) || (m =? 11) then 30
  else 31.

Definition days_before_year (y : Z) : Z :=
  let p := y - 1 in p * 365 + p / 4 - p / 100 + p / 400.

Definition days_before_month (y m : Z) : Z :=
  fold_right Z.add 0 (days_in_month y <$> range 1 m).

(** [date.toordinal()]: 1 for 0001-01-01. *)
Definition toordinal (d : date) : Z :=
  days_before_year (year d) + days_before_month (year d) (month d) + day d.

Definition valid_date (d : date) : bool :=
  (1 <=? year d) && (year d <=? 9999) &&
  (1 <=? month d) && (month d <=? 12) &&
  (1 <=? day d) && (day d <=? days_in_month (year d) (month d)).

(** [date.__le__]: the order of (year, month, day). *)
Definition date_le (a b : date) : bool :=
  (year a <? year b) ||
  ((year a =? year b) &&
   ((month a <? month b) || ((month a =? month b) && (day a <=? day b)))).

Definition two_digits (a b : ascii) : option Z :=
  if is_ascii_digit a && is_ascii_digit b
  then Some (10 * digit_value a + digit_value b)
  else None.

(** [date.fromisoformat] works in two steps: it reads year, month and day
    off the string, then builds the date, which checks the three numbers.
    Which strings the first step reads depends on the Python version
    (3.7 to 3.10 read [YYYY-MM-DD] only; 3.11 also reads [YYYYMMDD] and the
    ISO week formats), so the reader is a parameter of what follows. *)
Definition DateReader : Type := string -> option date.

(** The reader of the extended calendar format [YYYY-MM-DD], the one
    [date.isoformat] writes and the client documents for [checkInDate].
    Every version of [date.fromisoformat] reads these strings this way. *)
Definition read_ymd : DateReader :=
  fun s =>
    match s with
    | String y1 (String y2 (String y3 (String y4 (String h1
        (String m1 (String m2 (String h2 (String d1 (String d2
          EmptyString))))))))) =>
        if bool_decide (h1 = "-"%char) && bool_decide (h2 = "-"%char) then
          match two_digits y1 y2, two_digits y3 y4,
                two_digits m1 m2, two_digits d1 d2 with
          | Some yh, Some yl, Some m, Some d =>
              Some {| year := 100 * yh + yl; month := m; day := d |}
          | _, _, _, _ => None
          end
        else None
    | _ => None
    end.

(** [date.fromisoformat(s)]; [None] stands for [ValueError], raised when
    the string is not read or the numbers read are no date.  No version
    reads the empty string. *)
Definition fromisoformat (read : DateReader) (s : string) : option date :=
  if bool_decide (s = "") then None
  else match read s with
       | Some d => if valid_date d then Some d else None
       | None => None
       end.

(** [date.fromisoformat(j)] on an arbitrary value: [TypeError] unless [j]
    is a [str], [ValueError] when the string is no date. *)
Definition date_of_json (read : DateReader) (j : Json) : Outcome date :=
  match j with
  | JStr s =>
      match fromisoformat read s with
      | Some d => Ok d
      | None => Raise ValueError
      end
  | _ => Raise TypeError
  end.

(** ** More builtins: [or], [rstrip], [min], slices with a bound *)

(** [not x] for an [Optional[str]]: [None] and the empty string. *)
Definition str_missing (x : option string) : bool :=
  match x with
  | Some s => bool_decide (s = "")
  | None => true
  end.

(** [x or y] for [Optional[str]] values. *)
Definition str_or (x y : option string) : option string :=
  if str_missing x then y else x.

(** [s.rstrip("/")]: every trailing slash goes. *)
Fixpoint rstrip_slash (s : string) : string :=
  match s with
  | EmptyString => EmptyString
  | String c rest =>
      match rstrip_slash rest with
      | EmptyString =>
          if bool_decide (c = "/"%char) then EmptyString
          else String c EmptyString
      | kept => String c kept
      end
  end.

(** The number of items of [x[:stop]] for a sequence of [len] items: a
    negative [stop] counts from the end. *)
Definition slice_stop (len : nat) (stop : Z) : nat :=
  if 0 <=? stop then Nat.min (Z.to_nat stop) len
  else (len - Z.to_nat (- stop))%nat.

(** [l[:stop]] *)
Definition slice_to {A} (l : list A) (stop : Z) : list A :=
  take (slice_stop (length l) stop) l.

(** [x[:stop]] on an arbitrary value: lists and strings can be sliced,
    [None], booleans and numbers are not subscriptable, and a dict rejects
    a slice as key ([TypeError] up to Python 3.11; 3.12 reports the same
    lookup as a [KeyError]). *)
Definition getslice_to (x : Json) (stop : Z) : Outcome Json :=
  match x with
  | JArr l => Ok (JArr (slice_to l stop))
  | JStr s => Ok (JStr (substring 0 (slice_stop (String.length s) stop) s))
  | _ => Raise TypeError
  end.

End Py.

Import Py.

(* ================================================================== *)
(** * hotels/amadeus_client.py *)
(* ================================================================== *)

Module amadeus_client.

Definition AMADEUS_AUTH_URL : string :=
  "https://test.api.amadeus.com/v1/security/oauth2/token".
Definition AMADEUS_BASE_URL : string := "https://test.api.amadeus.com".
Definition DEFAULT_TIMEOUT : Z * Z := (5, 20).
Definition MAX_RETRIES : Z := 3.
(** [RETRY_BACKOFF = 2.0].  Its powers with a small natural exponent are
    exact floats, so the sleeps are kept as integers of seconds.  A power
    too large for a float raises [OverflowError], and so does [time.sleep]
    on every power beyond [SLEEP_MAX] below, so that the integer power
    followed by [time_sleep] ends the same way. *)
Definition RETRY_BACKOFF : Z := 2.

(** ** The HTTP session and the clock *)

Inductive HeaderValue : Type :=
| Bearer (token : Json).   (* f"Bearer {token}" *)

Inductive Request : Type :=
| POST (url : string) (data : gmap string string) (timeout : Z * Z)
| GET (url : string) (params : gmap string Json)
      (headers : gmap string HeaderValue) (timeout : Z * Z).

(** What the client observes of a [requests.Response]: [status_code],
    [headers.get("Retry-After")], [text] and [json()].  [json] is [None]
    for a body that is not JSON (an empty one, say), on which [json()]
    raises; a body that is JSON may be any value, an object or not. *)
Record Response : Type := {
  status_code : Z;
  retry_after : option string;
  text : string;
  json : option Json;
}.

Inductive Event : Type :=
| Call (req : Request) (resp : Response)
| Sleep (seconds : Z).

(** A session answers a request given everything that happened before.
    The exceptions of the transport itself (a refused connection, a
    timeout) are not part of the embedding: the client has no handler for
    them, and what follows is about requests that are answered. *)
Definition Session : Type := list Event -> Request -> Response.

(** The client object.  [_access_token] is [None] ([JNull]) until a token
    is cached.  [history] is the trace of the session and of [time.sleep],
    oldest event first. *)
Record AmadeusClient : Type := {
  client_id : string;
  client_secret : string;
  base_url : string;
  timeout : Z * Z;
  _access_token : Json;
  _session : Session;
  history : list Event;
}.

Definition record (e : Event) (self : AmadeusClient) : AmadeusClient :=
  {| client_id := client_id self; client_secret := client_secret self;
     base_url := base_url self; timeout := timeout self;
     _access_token := _access_token self; _session := _session self;
     history := history self ++ [e] |}.

Definition store_token (token : Json) (self : AmadeusClient) : AmadeusClient :=
  {| client_id := client_id self; client_secret := client_secret self;
     base_url := base_url self; timeout := timeout self;
     _access_token := token; _session := _session self;
     history := history self |}.

(** ** Methods run in a state-and-exception monad over the client *)

Definition M (A : Type) : Type := AmadeusClient -> Outcome A * AmadeusClient.

Definition ret {A} (a : A) : M A := fun self => (Ok a, self).
Definition raise {A} (e : Exn) : M A := fun self => (Raise e, self).
Definition bind {A B} (m : M A) (k : A -> M B) : M B :=
  fun self =>
    match m self with
    | (Ok a, self') => k a self'
    | (Raise e, self') => (Raise e, self')
    end.

Notation "x <- m ;; k" := (bind m (fun x => k))
  (at level 100, m at next level, right associativity).
Notation "m ;;; k" := (bind m (fun _ => k))
  (at level 100, right associativity).

Definition send (req : Request) : M Response :=
  fun self =>
    let resp := _session self (history self) req in
    (Ok resp, record (Call req resp) self).

Definition session_post (url : string) (data : gmap string string) : M Response :=
  fun self => send (POST url data (timeout self)) self.

Definition session_get (url : string) (params : gmap string Json)
    (headers : gmap string HeaderValue) : M Response :=
  fun self => send (GET url params headers (timeout self)) self.

(** [time.sleep] keeps the duration as a 64-bit count of nanoseconds, so
    the longest sleep is 9223372036 seconds. *)
Definition SLEEP_MAX : Z := 9223372036.

(** [time.sleep(seconds)]: [ValueError] on a negative duration and
    [OverflowError] on one beyond [SLEEP_MAX], both before any sleep. *)
Definition time_sleep (seconds : Z) : M unit :=
  if seconds <? 0 then raise ValueError
  else if SLEEP_MAX <? seconds then raise OverflowError
  else fun self => (Ok tt, record (Sleep seconds) self).

(** [resp.json()] *)
Definition json_body (resp : Response) : M Json :=
  match json resp with
  | Some body => ret body
  | None => raise JSONDecodeError
  end.

(** An exception of a pure step, raised inside a method. *)
Definition lift {A} (o : Outcome A) : M A :=
  match o with
  | Ok a => ret a
  | Raise e => raise e
  end.

Definition is_2xx (status : Z) : bool := (200 <=? status) && (status <? 300).
Definition is_5xx (status : Z) : bool := (500 <=? status) && (status <? 600).

(** ** Internal helpers *)

(** Both callers pass an [attempt] of [range(1, MAX_RETRIES + 1)], so the
    exponent is never negative. *)
Definition _sleep_backoff (attempt : Z) : M unit :=
  let sleep_s := RETRY_BACKOFF ^ (attempt - 1) in
  time_sleep sleep_s.

Definition _handle_rate_limit (resp : Response) (attempt : Z) : M unit :=
  delay <-
    match retry_after resp with
    | Some v =>
        if negb (bool_decide (v = "")) && isdigit v then
          match int_of_str v with
          | Ok n => ret n
          | Raise e => raise e
          end
        else ret (Z.max 1 (RETRY_BACKOFF ^ attempt))
    | None => ret (Z.max 1 (RETRY_BACKOFF ^ attempt))
    end ;;
  time_sleep delay ;;;
  if MAX_RETRIES <=? attempt
  then raise AmadeusRateLimitError
  else ret tt.

(** The body of [for attempt in range(1, MAX_RETRIES + 1)] in [_post_form],
    over the attempts still to come; the empty list is the code after the
    loop. *)
Fixpoint _post_form_loop (url : string) (data : gmap string string)
    (attempts : list Z) : M Json :=
  match attempts with
  | [] => raise (AmadeusAuthError AuthFailedAfterRetries)
  | attempt :: rest =>
      resp <- session_post url data ;;
      if status_code resp =? 429 then
        _handle_rate_limit resp attempt ;;;
        _post_form_loop url data rest
      else if is_2xx (status_code resp) then
        json_body resp
      else if is_5xx (status_code resp) && (attempt <? MAX_RETRIES) then
        _sleep_backoff attempt ;;;
        _post_form_loop url data rest
      else
        raise (AmadeusAuthError
                 (AuthRequestFailed (status_code resp)
                                    (substring 0 500 (text resp))))
  end.

Definition _post_form (url : string) (data : gmap string string)
  : M Json :=
  _post_form_loop url data (range 1 (MAX_RETRIES + 1)).

Definition get_access_token (force : bool) : M Json :=
  fun self =>
    if truthy (_access_token self) && negb force then
      (Ok (_access_token self), self)
    else
      let payload : gmap string string :=
        <["grant_type" := "client_credentials"]>
        (<["client_id" := client_id self]>
        (<["client_secret" := client_secret self]> ∅)) in
      (data <- _post_form AMADEUS_AUTH_URL payload ;;
       token <- lift (get data "access_token") ;;
       if negb (truthy token) then
         raise (AmadeusAuthError (MissingAccessToken data))
       else
         fun self' => (Ok token, store_token token self')) self.

Definition _headers : M (gmap string HeaderValue) :=
  fun self =>
    ((if negb (truthy (_access_token self))
      then get_access_token false ;;; ret tt
      else ret tt) ;;;
     fun self' =>
       (Ok ({["Authorization" := Bearer (_access_token self')]}
              : gmap string HeaderValue), self')) self.

(** The body of the attempt loop of [_get]. *)
Fixpoint _get_loop (url : string) (params : gmap string Json)
    (attempts : list Z) : M Json :=
  match attempts with
  | [] => raise (RuntimeError (GetFailedAfterRetries url))
  | attempt :: rest =>
      headers <- _headers ;;
      resp <- session_get url params headers ;;
      if status_code resp =? 429 then
        _handle_rate_limit resp attempt ;;;
        _get_loop url params rest
      else if (status_code resp =? 401) && (attempt <? MAX_RETRIES) then
        get_access_token true ;;;
        _get_loop url params rest
      else if is_2xx (status_code resp) then
        json_body resp
      else if is_5xx (status_code resp) && (attempt <? MAX_RETRIES) then
        _sleep_backoff attempt ;;;
        _get_loop url params rest
      else
        raise (RuntimeError
                 (GetFailed url (status_code resp)
                            (substring 0 500 (text resp))))
  end.

Definition _get (url : string) (params : gmap string Json)
  : M Json :=
  _get_loop url params (range 1 (MAX_RETRIES + 1)).

(** ** Small utilities *)

(** [_chunks] is a generator; its slices read a list nobody mutates, so
    the list of everything it yields is the same thing. *)
Definition _chunks (seq : list string) (size : nat)
  : Outcome (list (list string)) :=
  obind (range_step (length seq) size)
        (fun starts => Ok ((fun i => slice seq i (i + size)) <$> starts)).

(** ** Public API: hotel offers *)

Definition offers_params (chunk : list string) (check_in : string)
    (nights adults rooms : Z) (currency : option string)
  : gmap string Json :=
  let params : gmap string Json :=
    <["hotelIds" := JStr (String.concat "," chunk)]>
    (<["checkInDate" := JStr check_in]>
    (<["roomQuantity" := JInt rooms]>
    (<["adults" := JInt adults]>
    (<["paymentPolicy" := JStr "NONE"]>
    (<["includeClosed" := JStr "false"]>
    (<["bestRateOnly" := JStr "true"]>
    (<["nights" := JInt nights]> ∅))))))) in
  match currency with
  | Some c => if negb (bool_decide (c = "")) then <["currency" := JStr c]> params
              else params
  | None => params
  end.

Definition batch (chunk : list string) (resp_json : Json) : Json :=
  JObj (<["request_hotel_ids" := JArr (JStr <$> chunk)]>
        (<["response" := resp_json]> ∅)).

(** The chunk loop of [get_hotel_offers], threading [all_batches]. *)
Fixpoint offers_loop (chunks : list (list string)) (check_in : string)
    (nights adults rooms : Z) (currency : option string)
    (all_batches : list Json) : M (list Json) :=
  match chunks with
  | [] => ret all_batches
  | chunk :: rest =>
      let params := offers_params chunk check_in nights adults rooms currency in
      url <- (fun self => (Ok (base_url self +:+ "/v3/shopping/hotel-offers"), self)) ;;
      resp_json <- _get url params ;;
      offers_loop rest check_in nights adults rooms currency
                  (all_batches ++ [batch chunk resp_json])
  end.

Definition get_hotel_offers (hotel_ids : list string) (check_in : string)
    (nights adults rooms : Z) (currency : option string) : M Json :=
  if bool_decide (hotel_ids = []) then
    ret (JObj {["batches" := JArr []]})
  else
    match _chunks hotel_ids 20 with
    | Raise e => raise e
    | Ok chunks =>
        all_batches <- offers_loop chunks check_in nights adults rooms currency [] ;;
        ret (JObj {["batches" := JArr all_batches]})
    end.


(** ** Construction *)

(** [AmadeusClient(client_id, client_secret, base_url, timeout, session)].
    [getenv] is [os.getenv] and [new_session] is what [requests.Session()]
    builds; [None] arguments are the defaults of the credentials and of the
    session. *)
Definition __init__ (getenv : string -> option string) (new_session : Session)
    (client_id client_secret : option string) (base_url : string)
    (timeout : Z * Z) (session : option Session) : Outcome AmadeusClient :=
  let client_id := str_or client_id (getenv "AMADEUS_CLIENT_ID") in
  let client_secret := str_or client_secret (getenv "AMADEUS_CLIENT_SECRET") in
  if str_missing client_id || str_missing client_secret then
    Raise ValueError
  else
    Ok {| amadeus_client.client_id := default "" client_id;
          amadeus_client.client_secret := default "" client_secret;
          amadeus_client.base_url := rstrip_slash base_url;
          amadeus_client.timeout := timeout;
          _access_token := JNull;
          _session := default new_session session;
          history := [] |}.

(** ** Public API: hotel lists *)

Section hotel_lists.

(** Two builtins stay abstract: [str.upper], which leaves the 8-bit
    characters, and the float formatting [f"{x:.6f}"]. *)
Variable str_upper : string -> string.
Variable format_6f : spec_float -> string.

Definition get_hotels_by_geocode (lat lon : spec_float) (radius_km : Z)
    (max_hotels : Z) : M Json :=
  url <- (fun self =>
            (Ok (base_url self +:+
                 "/v1/reference-data/locations/hotels/by-geocode"), self)) ;;
  let params : gmap string Json :=
    <["latitude" := JStr (format_6f lat)]>
    (<["longitude" := JStr (format_6f lon)]>
    (<["radius" := JInt radius_km]> ∅)) in
  data <- _get url params ;;
  hotels <- lift (get_or data "data" (JArr [])) ;;
  lift (getslice_to hotels max_hotels).

Definition get_hotels_by_city (city_code : string) (max_hotels : Z) : M Json :=
  url <- (fun self =>
            (Ok (base_url self +:+
                 "/v1/reference-data/locations/hotels/by-city"), self)) ;;
  let page_limit := Z.min 100 max_hotels in
  let params : gmap string Json :=
    <["cityCode" := JStr (str_upper city_code)]>
    (<["page[limit]" := JInt page_limit]> ∅) in
  data <- _get url params ;;
  hotels <- lift (get_or data "data" (JArr [])) ;;
  lift (getslice_to hotels max_hotels).

End hotel_lists.

End amadeus_client.

(* ================================================================== *)
(** * hotels/flatten.py *)
(* ================================================================== *)

Module flatten.

Notation "x <-? m ;; k" := (obind m (fun x => k))
  (at level 100, m at next level, right associativity).

(** [offer.get("price", {}).get(key)] *)
Definition price_field (offer : Json) (key : string) : Outcome Json :=
  price <-? get_or offer "price" (JObj ∅) ;;
  get price key.

(** The [refundable_flag] block. *)
Definition refundable_of (offer : Json) : Outcome Json :=
  policies <-? get_or offer "policies" (JObj ∅) ;;
  present <-? contains policies "refundable" ;;
  if (present : bool) then
    entry <-? getitem policies "refundable" ;;
    refund <-? get entry "cancellationRefund" ;;
    Ok (JBool (negb (eq_str refund "NON_REFUNDABLE")))
  else Ok JNull.

(** One flat dict of [rows]; [None] is [JNull]. *)
Record Row : Type := {
  hotelId : Json;
  checkInDate : Json;
  nights : Json;
  totalPrice : Json;
  currency : Json;
  refundable : Json;
}.

Section reader.

(** The strings the [date.fromisoformat] of the interpreter reads. *)
Variable read : DateReader.

(** The [nights] block: the [try] body raises [TypeError] or [ValueError]
    from [date.fromisoformat], and [except Exception: pass] leaves [None]. *)
Definition nights_of (check_in check_out : Json) : Json :=
  if truthy check_in && truthy check_out then
    match (ci <-? date_of_json read check_in ;;
           co <-? date_of_json read check_out ;;
           Ok (toordinal co - toordinal ci)) with
    | Ok days => JInt days
    | Raise _ => JNull
    end
  else JNull.

(** The body of [for offer in entry.get("offers", [])]. *)
Definition offer_row (hotel_id offer : Json) : Outcome Row :=
  check_in <-? get offer "checkInDate" ;;
  check_out <-? get offer "checkOutDate" ;;
  price_total <-? price_field offer "total" ;;
  currency <-? price_field offer "currency" ;;
  let nights := nights_of check_in check_out in
  refundable_flag <-? refundable_of offer ;;
  Ok {| hotelId := hotel_id; checkInDate := check_in; nights := nights;
        totalPrice := price_total; currency := currency;
        refundable := refundable_flag |}.

Definition entry_rows (rows : list Row) (entry : Json) : Outcome (list Row) :=
  hotel <-? get_or entry "hotel" (JObj ∅) ;;
  hotel_id <-? get hotel "hotelId" ;;
  offers <-? get_or entry "offers" (JArr []) ;;
  offers <-? iter offers ;;
  ofold (fun (rows : list Row) offer =>
           row <-? offer_row hotel_id offer ;; Ok (rows ++ [row]))
        rows offers.

Definition batch_rows (rows : list Row) (batch : Json) : Outcome (list Row) :=
  response <-? get_or batch "response" (JObj ∅) ;;
  data <-? get_or response "data" (JArr []) ;;
  entries <-? iter data ;;
  ofold entry_rows rows entries.

Definition flatten_offers (raw : gmap string Json) : Outcome (list Row) :=
  batches <-? iter (default (JArr []) (raw !! "batches")) ;;
  ofold batch_rows [] batches.

End reader.

End flatten.

(* ================================================================== *)
(** * Sample data used by the examples *)
(* ================================================================== *)

Module samples.
Import amadeus_client flatten.

(** An offer as the hotel-offers endpoint returns it. *)
Definition sample_offer : gmap string Json :=
  <["checkInDate" := JStr "2025-09-20"]>
  (<["checkOutDate" := JStr "2025-09-22"]>
  (<["price" := JObj (<["total" := JStr "240.00"]>
                      (<["currency" := JStr "EUR"]> ∅))]>
  (<["policies" := JObj (<["refundable" :=
        JObj (<["cancellationRefund" := JStr "NON_REFUNDABLE"]> ∅)]> ∅)]> ∅))).

(** An offer with reversed dates, no price and a bare refundable entry. *)
Definition bare_refundable_offer : gmap string Json :=
  <["checkInDate" := JStr "2025-09-22"]>
  (<["checkOutDate" := JStr "2025-09-20"]>
  (<["policies" := JObj (<["refundable" := JObj ∅]> ∅)]> ∅)).

(** ** Clients and sessions *)

(** A response whose body is the JSON object [body]. *)
Definition reply (status : Z) (hint : option string) (body : gmap string Json)
  : Response :=
  {| status_code := status; retry_after := hint; text := "body";
     json := Some (JObj body) |}.

(** A response with any body: [None] for one that is not JSON. *)
Definition reply_raw (status : Z) (body : option Json) : Response :=
  {| status_code := status; retry_after := None; text := "body";
     json := body |}.

Definition token_body : gmap string Json := {["access_token" := JStr "tok-1"]}.
Definition empty_data : gmap string Json := {["data" := JArr []]}.

(** A client as [AmadeusClient(client_id, client_secret, session=...)]
    builds it: default base URL and timeout, no token yet. *)
Definition fresh_client (session : Session) : AmadeusClient :=
  {| client_id := "id"; client_secret := "secret";
     base_url := AMADEUS_BASE_URL; timeout := DEFAULT_TIMEOUT;
     _access_token := JNull; _session := session; history := [] |}.

Definition client_with_token (session : Session) : AmadeusClient :=
  store_token (JStr "tok-0") (fresh_client session).

(** Grants a token on every POST and answers every GET with 200. *)
Definition healthy_session : Session :=
  fun _ req =>
    match req with
    | POST _ _ _ => reply 200 None token_body
    | GET _ _ _ _ => reply 200 None empty_data
    end.

(** Grants tokens but answers every GET with 500. *)
Definition failing_session : Session :=
  fun _ req =>
    match req with
    | POST _ _ _ => reply 200 None token_body
    | GET _ _ _ _ => reply 500 None ∅
    end.

(** Answers a GET with 401 while nothing has happened yet, then with 200. *)
Definition expiring_session : Session :=
  fun past req =>
    match req with
    | POST _ _ _ => reply 200 None token_body
    | GET _ _ _ _ =>
        if bool_decide (past = []) then reply 401 None ∅
        else reply 200 None empty_data
    end.

(** Answers everything with 429 and the given Retry-After header. *)
Definition throttling_session (hint : option string) : Session :=
  fun _ _ => reply 429 hint ∅.

(** Answers everything with 503. *)
Definition unavailable_session : Session :=
  fun _ _ => reply 503 None ∅.

(** Grants an exchange whose body carries no token. *)
Definition tokenless_session : Session :=
  fun _ _ => reply 200 None ∅.

(** Answers everything with 200 and the JSON body [[]]. *)
Definition array_session : Session :=
  fun _ _ => reply_raw 200 (Some (JArr [])).

(** Answers everything with 200 and an empty body. *)
Definition blank_session : Session :=
  fun _ _ => reply_raw 200 None.

(** Grants tokens, then answers the first GET with 200 and an empty body. *)
Definition garbled_session : Session :=
  fun _ req =>
    match req with
    | POST _ _ _ => reply 200 None token_body
    | GET _ _ _ _ => reply_raw 200 None
    end.

(** The one-character string U+00B2 (superscript two). *)
Definition superscript_two : string := String (ascii_of_N 178) "".

Definition throttled_client : AmadeusClient :=
  fresh_client (throttling_session None).

Definition unavailable_client : AmadeusClient :=
  fresh_client unavailable_session.

Definition tokenless_client : AmadeusClient :=
  client_with_token tokenless_session.

Definition array_client : AmadeusClient :=
  client_with_token array_session.

Definition blank_client : AmadeusClient :=
  client_with_token blank_session.

Definition garbled_client : AmadeusClient :=
  client_with_token garbled_session.

Definition odd_hint_client : AmadeusClient :=
  client_with_token (throttling_session (Some superscript_two)).

Definition failing_client : AmadeusClient :=
  client_with_token failing_session.

Definition expiring_client : AmadeusClient :=
  client_with_token expiring_session.

(** [str.upper] on the letters a-z; the other characters stay. *)
Definition upper_char (c : ascii) : ascii :=
  let n := N_of_ascii c in
  if ((97 <=? n) && (n <=? 122))%N then ascii_of_N (n - 32) else c.

Fixpoint upper_az (s : string) : string :=
  match s with
  | EmptyString => EmptyString
  | String c rest => String (upper_char c) (upper_az rest)
  end.

(** An environment holding both credentials. *)
Definition sample_env (name : string) : option string :=
  if bool_decide (name = "AMADEUS_CLIENT_ID") then Some "env-id"
  else if bool_decide (name = "AMADEUS_CLIENT_SECRET") then Some "env-secret"
  else None.

(** Answers every GET with a list of three hotels. *)
Definition three_hotels : list Json :=
  [JObj {["hotelId" := JStr "H1"]}; JObj {["hotelId" := JStr "H2"]};
   JObj {["hotelId" := JStr "H3"]}].

Definition listing_session : Session :=
  fun _ req =>
    match req with
    | POST _ _ _ => reply 200 None token_body
    | GET _ _ _ _ => reply 200 None {["data" := JArr three_hotels]}
    end.

End samples.

(* ================================================================== *)
(** * Vocabulary of the statements *)
(* ================================================================== *)

Module vocab.
Import amadeus_client.

(** A GET that was answered with a 2xx status and a JSON body, as
    (params, parsed body). *)
Definition answered (e : Event) : option (gmap string Json * Json) :=
  match e with
  | Call (GET _ params _ _) resp =>
      if is_2xx (status_code resp) then pair params <$> json resp else None
  | _ => None
  end.

Definition ok_gets (evs : list Event) : list (gmap string Json * Json) :=
  omap answered evs.

(** The parameters of a GET, whatever the answer. *)
Definition asked (e : Event) : option (gmap string Json) :=
  match e with
  | Call (GET _ params _ _) _ => Some params
  | _ => None
  end.

Definition asks (evs : list Event) : list (gmap string Json) := omap asked evs.

(** Everything of the client but the cached token and the history. *)
Definition same_config (s s' : AmadeusClient) : Prop :=
  client_id s' = client_id s /\ client_secret s' = client_secret s /\
  base_url s' = base_url s /\ timeout s' = timeout s /\
  _session s' = _session s.

(** [s'] is [s] after some more events, whose answered GETs are [l]. *)
Definition yields (s s' : AmadeusClient)
    (l : list (gmap string Json * Json)) : Prop :=
  same_config s s' /\
  exists evs, history s' = history s ++ evs /\ ok_gets evs = l.

(** [s'] is [s] after some more events, none of them an answered GET. *)
Definition quiet (s s' : AmadeusClient) : Prop := yields s s' [].

Definition preserves {A} (m : M A) : Prop := forall s, quiet s (m s).2.


(** The windows [l[k*size : k*size+size]] for [k < c]. *)
Definition windows {A} (l : list A) (size c : nat) : list (list A) :=
  (fun i => slice l i (i + size)) <$> ((fun k => k * size)%nat <$> seq 0 c).

(** The responses to the POSTs among [evs], oldest first. *)
Definition posted (e : Event) : option Response :=
  match e with
  | Call (POST _ _ _) resp => Some resp
  | _ => None
  end.

Definition posts (evs : list Event) : list Response := omap posted evs.

(** The responses to the GETs among [evs], oldest first. *)
Definition got (e : Event) : option Response :=
  match e with
  | Call (GET _ _ _ _) resp => Some resp
  | _ => None
  end.

Definition gets (evs : list Event) : list Response := omap got evs.

(** The token exchanges among [evs] that were granted (answered 2xx). *)
Definition granted (evs : list Event) : list Response :=
  filter (fun resp => is_2xx (status_code resp) = true) (posts evs).

(** The sleeps among [evs], oldest first. *)
Definition slept (e : Event) : option Z :=
  match e with
  | Sleep seconds => Some seconds
  | _ => None
  end.

Definition sleeps (evs : list Event) : list Z := omap slept evs.

(** A decimal number: digits 0-9 only, at least one. *)
Definition decimal (v : string) : bool :=
  negb (bool_decide (v = "")) && all_chars is_ascii_digit v.

(** A Retry-After value on which [isdigit] and [int] agree: absent, not
    all digits, or a decimal number of at most 4300 digits. *)
Definition plain_hint (hint : option string) : bool :=
  match hint with
  | None => true
  | Some v =>
      negb (isdigit v) ||
      (decimal v && (Z.of_nat (String.length v) <=? 4300))
  end.

(** The delay of the rate-limit policy as the specification words it:
    the announced seconds when the header is a decimal number, else
    max(1, 2^attempt). *)
Definition policy_delay (hint : option string) (attempt : Z) : Z :=
  match hint with
  | Some v => if decimal v then decimal_from 0 v
              else Z.max 1 (2 ^ attempt)
  | None => Z.max 1 (2 ^ attempt)
  end.

(** A number of seconds that [time.sleep] accepts. *)
Definition sleepable (seconds : Z) : bool :=
  (0 <=? seconds) && (seconds <=? 9223372036).

(** A Retry-After value the handler can act on at this attempt: [int]
    reads it where [isdigit] lets it through, and the delay of the policy
    can be slept. *)
Definition usable_hint (hint : option string) (attempt : Z) : bool :=
  plain_hint hint && sleepable (policy_delay hint attempt).

(** What [resp.json()] gives. *)
Definition parsed (resp : Response) : Outcome Json :=
  match json resp with
  | Some body => Ok body
  | None => Raise JSONDecodeError
  end.

(** The form of the client-credentials exchange. *)
Definition credentials_form (s : AmadeusClient) : gmap string string :=
  <["grant_type" := "client_credentials"]>
  (<["client_id" := client_id s]>
  (<["client_secret" := client_secret s]> ∅)).

(** What the session answers to [req] in state [s]. *)
Definition answer (s : AmadeusClient) (req : Request) : Response :=
  _session s (history s) req.

Definition bearer (token : Json) : gmap string HeaderValue :=
  {["Authorization" := Bearer token]}.

(** What [_post_form] ends with when [resp] answers its attempt number
    [attempt] and no attempt is left after it. *)
Definition verdict (attempt : Z) (resp : Response) : Outcome Json :=
  if status_code resp =? 429 then
    if plain_hint (retry_after resp) then
      if sleepable (policy_delay (retry_after resp) attempt) then
        if MAX_RETRIES <=? attempt then Raise AmadeusRateLimitError
        else Raise (AmadeusAuthError AuthFailedAfterRetries)
      else Raise OverflowError
    else Raise ValueError
  else if is_2xx (status_code resp) then parsed resp
  else if is_5xx (status_code resp) && (attempt <? MAX_RETRIES) then
    Raise (AmadeusAuthError AuthFailedAfterRetries)
  else Raise (AmadeusAuthError
                (AuthRequestFailed (status_code resp)
                                   (substring 0 500 (text resp)))).

Definition keeps_token {A} (m : M A) : Prop :=
  forall s, _access_token (m s).2 = _access_token s.

(** ** Further vocabulary *)

(** Every run of [m] appends events that satisfy [P]. *)
Definition appends {A} (P : list Event -> Prop) (m : M A) : Prop :=
  forall s, exists evs, history (m s).2 = history s ++ evs /\ P evs.

Definition no_get (evs : list Event) : Prop := gets evs = [].

(** A token is cached. *)
Definition cached (s : AmadeusClient) : Prop :=
  truthy (_access_token s) = true.

(** [m] never loses a cached token. *)
Definition keeps_cached {A} (m : M A) : Prop :=
  forall s, cached s -> cached (m s).2.

Definition total (l : list Z) : Z := fold_right Z.add 0 l.

(** A session that never announces a Retry-After. *)
Definition never_hints (session : Session) : Prop :=
  forall past req, retry_after (session past req) = None.

(** The exceptions other than the two raised after the attempt loops. *)
Definition from_an_attempt (e : Exn) : Prop :=
  match e with
  | AmadeusAuthError AuthFailedAfterRetries => False
  | RuntimeError (GetFailedAfterRetries _) => False
  | _ => True
  end.

(** [m] raises nothing but exceptions of an attempt. *)
Definition raises_from_attempts {A} (m : M A) : Prop :=
  forall s e, (m s).1 = Raise e -> from_an_attempt e.

(** The last attempt of the list is at or past the retry ceiling. *)
Definition ends_at_ceiling (attempts : list Z) : Prop :=
  exists a, last attempts = Some a /\ MAX_RETRIES <= a.

(** A run of [n] slashes. *)
Fixpoint slashes (n : nat) : string :=
  match n with
  | O => EmptyString
  | S k => String "/"%char (slashes k)
  end.

(** ** Vocabulary for [flatten_offers] *)

(** What a [for] loop runs over; nothing when the value cannot be
    iterated. *)
Definition items (j : Json) : list Json :=
  match iter j with
  | Ok l => l
  | Raise _ => []
  end.

(** The entries of a batch: [batch.get("response", {}).get("data", [])]. *)
Definition entries_of (batch : Json) : list Json :=
  match obind (get_or batch "response" (JObj ∅))
              (fun response => get_or response "data" (JArr [])) with
  | Ok data => items data
  | Raise _ => []
  end.

(** [entry.get("hotel", {}).get("hotelId")] *)
Definition hotel_id_of (entry : Json) : Json :=
  match obind (get_or entry "hotel" (JObj ∅))
              (fun hotel => get hotel "hotelId") with
  | Ok hotel_id => hotel_id
  | Raise _ => JNull
  end.

(** [entry.get("offers", [])] *)
Definition offers_of (entry : Json) : list Json :=
  match get_or entry "offers" (JArr []) with
  | Ok offers => items offers
  | Raise _ => []
  end.

(** Every offer of a payload with the hotel id of its entry, in the order
    of the payload. *)
Definition offer_pairs (batches : list Json) : list (Json * Json) :=
  batch ← batches;
  entry ← entries_of batch;
  (fun offer => (hotel_id_of entry, offer)) <$> offers_of entry.


(** A loop body that only appends to the rows it is given. *)
Definition appending {A} (body : list flatten.Row -> A -> Outcome (list flatten.Row))
  : Prop :=
  forall acc x,
    body acc x = obind (body [] x) (fun new => Ok (acc ++ new)).

(** [nights] is [None] or an int, [refundable] is [None] or a bool. *)
Definition well_typed (row : flatten.Row) : Prop :=
  (flatten.nights row = JNull \/ exists n, flatten.nights row = JInt n) /\
  (flatten.refundable row = JNull \/ exists b, flatten.refundable row = JBool b).

End vocab.

(* ================================================================== *)
(** * Properties of the runtime fragment *)
(* ================================================================== *)

Section py_facts.

Example fromisoformat_sample :
  fromisoformat read_ymd "2025-09-20"
    = Some {| year := 2025; month := 9; day := 20 |}.
Proof. reflexivity. Qed.

Example fromisoformat_rejects_feb_30 : fromisoformat read_ymd "2025-02-30" = None.
Proof. reflexivity. Qed.

Example toordinal_sample :
  toordinal {| year := 2025; month := 9; day := 20 |} = 739514.
Proof. reflexivity. Qed.

Lemma fromisoformat_valid (read : DateReader) (s : string) (d : date) :
  fromisoformat read s = Some d -> valid_date d = true.
Proof.
  unfold fromisoformat. repeat case_match; try discriminate.
  intros [= <-]. assumption.
Qed.


Lemma date_of_json_valid (read : DateReader) (j : Json) (d : date) :
  date_of_json read j = Ok d -> valid_date d = true.
Proof.
  destruct j; simpl; try discriminate.
  destruct (fromisoformat read s) eqn:E; try discriminate.
  intros [= <-]. eauto using fromisoformat_valid.
Qed.

Lemma date_of_json_truthy (read : DateReader) (j : Json) (d : date) :
  date_of_json read j = Ok d -> truthy j = true.
Proof.
  destruct j; simpl; try discriminate.
  unfold fromisoformat. destruct s; [discriminate | reflexivity].
Qed.

Lemma month_cases (m : Z) :
  1 <= m <= 12 ->
  m = 1 \/ m = 2 \/ m = 3 \/ m = 4 \/ m = 5 \/ m = 6 \/
  m = 7 \/ m = 8 \/ m = 9 \/ m = 10 \/ m = 11 \/ m = 12.
Proof. lia. Qed.

Lemma days_before_year_succ (y : Z) :
  days_before_year (y + 1) = days_before_year y + 365 + (if is_leap y then 1 else 0).
Proof.
  unfold days_before_year, is_leap. 
  replace (y + 1 - 1) with y by lia.
  destruct (Z.eqb_spec (y mod 4) 0); destruct (Z.eqb_spec (y mod 100) 0);
  destruct (Z.eqb_spec (y mod 400) 0); simpl; Z.div_mod_to_equations; lia.
Qed.

Lemma days_before_year_mono (y y' : Z) :
  y <= y' -> days_before_year y <= days_before_year y'.
Proof. unfold days_before_year. intros. Z.div_mod_to_equations. lia. Qed.

Lemma days_before_month_succ (y m : Z) :
  1 <= m <= 12 ->
  days_before_month y (m + 1) = days_before_month y m + days_in_month y m.
Proof.
  intros Hm. destruct (month_cases m Hm) as [->|[->|[->|[->|[->|[->|[->|[->|[->|[->|[->| ->]]]]]]]]]]];
  unfold days_before_month, range, days_in_month; simpl; destruct (is_leap y); lia.
Qed.

Lemma days_in_month_ge (y m : Z) : 28 <= days_in_month y m.
Proof. unfold days_in_month. repeat case_match; lia. Qed.

Lemma days_before_month_steps (y m : Z) (n : nat) :
  1 <= m -> m + Z.of_nat n <= 13 ->
  days_before_month y m <= days_before_month y (m + Z.of_nat n).
Proof.
  intros H1. induction n as [|n IH]; intros H2.
  - replace (m + Z.of_nat 0) with m by lia. lia.
  - replace (m + Z.of_nat (S n)) with (m + Z.of_nat n + 1) by lia.
    rewrite days_before_month_succ by lia.
    pose proof (days_in_month_ge y (m + Z.of_nat n)). lia.
Qed.

Lemma days_before_month_mono (y m m' : Z) :
  1 <= m -> m <= m' -> m' <= 13 ->
  days_before_month y m <= days_before_month y m'.
Proof.
  intros H1 H2 H3.
  replace m' with (m + Z.of_nat (Z.to_nat (m' - m))) by lia.
  apply days_before_month_steps; lia.
Qed.

Lemma days_before_month_13 (y : Z) :
  days_before_month y 13 = 365 + (if is_leap y then 1 else 0).
Proof. unfold days_before_month, range, days_in_month; simpl. destruct (is_leap y); lia. Qed.

Lemma days_before_month_1 (y : Z) : days_before_month y 1 = 0.
Proof. reflexivity. Qed.

Lemma toordinal_mono (a b : date) :
  valid_date a = true -> valid_date b = true ->
  date_le a b = true -> toordinal a <= toordinal b.
Proof.
  unfold valid_date, date_le, toordinal.
  destruct a as [ya ma da], b as [yb mb db]; simpl.
  intros Ha Hb Hle.
  assert (Ha' : days_before_month ya ma + da <= days_before_month ya (ma + 1)).
  { rewrite days_before_month_succ by lia. lia. }
  assert (Hb' : 0 <= days_before_month yb mb).
  { rewrite <- (days_before_month_1 yb). apply days_before_month_mono; lia. }
  destruct (Z.ltb_spec ya yb) as [Hy|Hy].
  - pose proof (days_before_month_mono ya (ma + 1) 13 ltac:(lia) ltac:(lia) ltac:(lia)) as H13.
    rewrite days_before_month_13 in H13.
    pose proof (days_before_year_succ ya) as Hs.
    pose proof (days_before_year_mono (ya + 1) yb ltac:(lia)).
    lia.
  - simpl in Hle. assert (ya = yb) as -> by lia.
    destruct (Z.ltb_spec ma mb) as [Hm|Hm].
    + pose proof (days_before_month_mono yb (ma + 1) mb ltac:(lia) ltac:(lia) ltac:(lia)). lia.
    + assert (ma = mb) as -> by lia. lia.
Qed.

End py_facts.

(* ================================================================== *)
(** * Properties of [flatten_offers] *)
(* ================================================================== *)

Module flatten_spec.
Import flatten samples vocab.

Lemma offer_row_dict (read : DateReader)
    (hotel_id : Json) (o : gmap string Json)
    (total cur flag : Json) :
  price_field (JObj o) "total" = Ok total ->
  price_field (JObj o) "currency" = Ok cur ->
  refundable_of (JObj o) = Ok flag ->
  offer_row read hotel_id (JObj o) =
    Ok {| hotelId := hotel_id;
          checkInDate := dict_get o "checkInDate";
          nights := nights_of read (dict_get o "checkInDate")
                              (dict_get o "checkOutDate");
          totalPrice := total; currency := cur; refundable := flag |}.
Proof.
  intros Ht Hc Hf. unfold offer_row. simpl.
  rewrite Ht, Hc, Hf. reflexivity.
Qed.

Lemma nights_of_parsed (read : DateReader)
    (check_in check_out : Json) (ci co : date) :
  date_of_json read check_in = Ok ci -> date_of_json read check_out = Ok co ->
  nights_of read check_in check_out = JInt (toordinal co - toordinal ci).
Proof.
  intros Hi Ho. unfold nights_of.
  rewrite (date_of_json_truthy _ _ _ Hi), (date_of_json_truthy _ _ _ Ho).
  simpl. rewrite Hi, Ho. reflexivity.
Qed.

Lemma nights_of_unparsed (read : DateReader) (check_in check_out : Json) :
  (forall ci, date_of_json read check_in <> Ok ci) \/
  (forall co, date_of_json read check_out <> Ok co) ->
  nights_of read check_in check_out = JNull.
Proof.
  intros H. unfold nights_of.
  destruct (truthy check_in && truthy check_out); [|reflexivity].
  destruct (date_of_json read check_in) as [ci|] eqn:Hi; simpl.
  - destruct (date_of_json read check_out) as [co|] eqn:Ho; simpl; [|reflexivity].
    destruct H as [H|H]; [destruct (H ci) | destruct (H co)]; reflexivity.
  - reflexivity.
Qed.

(** Whatever the two date fields hold, the [nights] block yields a value. *)
Lemma nights_of_total (read : DateReader) (check_in check_out : Json) :
  nights_of read check_in check_out = JNull \/
  exists ci co, date_of_json read check_in = Ok ci /\ date_of_json read check_out = Ok co /\
                nights_of read check_in check_out = JInt (toordinal co - toordinal ci).
Proof.
  destruct (date_of_json read check_in) as [ci|e1] eqn:Hi.
  - destruct (date_of_json read check_out) as [co|e2] eqn:Ho.
    + right. exists ci, co. eauto using nights_of_parsed.
    + left. apply nights_of_unparsed. right. congruence.
  - left. apply nights_of_unparsed. left. congruence.
Qed.





Lemma refundable_of_entry (o p r : gmap string Json) :
  o !! "policies" = Some (JObj p) ->
  p !! "refundable" = Some (JObj r) ->
  refundable_of (JObj o) =
    Ok (JBool (negb (eq_str (dict_get r "cancellationRefund") "NON_REFUNDABLE"))).
Proof.
  intros Hp Hr. unfold refundable_of. simpl. rewrite Hp. simpl.
  rewrite Hr. reflexivity.
Qed.

Lemma refundable_of_no_key (o p : gmap string Json) :
  o !! "policies" = Some (JObj p) ->
  p !! "refundable" = None ->
  refundable_of (JObj o) = Ok JNull.
Proof.
  intros Hp Hr. unfold refundable_of. simpl. rewrite Hp. simpl.
  rewrite Hr. reflexivity.
Qed.

Lemma refundable_of_no_policies (o : gmap string Json) :
  o !! "policies" = None ->
  refundable_of (JObj o) = Ok JNull.
Proof.
  intros Hp. unfold refundable_of. simpl. rewrite Hp. reflexivity.
Qed.

Lemma eq_str_false (v : Json) (s : string) : v <> JStr s -> eq_str v s = false.
Proof.
  destruct v; simpl; try reflexivity.
  intros H. apply bool_decide_eq_false_2. congruence.
Qed.

(** C8: the [refundable] field of a flattened offer whose price fields can
    be read.  A [refundable] policy entry whose [cancellationRefund] is
    ["NON_REFUNDABLE"] gives [False]; an entry with any other
    [cancellationRefund] value gives [True]; policies without the
    [refundable] key, or no policies at all, give [None]. *)
Theorem refundable_from_policies (read : DateReader)
    (hotel_id : Json) (o : gmap string Json)
    (total cur : Json) :
  price_field (JObj o) "total" = Ok total ->
  price_field (JObj o) "currency" = Ok cur ->
  (forall p r,
      o !! "policies" = Some (JObj p) ->
      p !! "refundable" = Some (JObj r) ->
      exists row, offer_row read hotel_id (JObj o) = Ok row /\
        (r !! "cancellationRefund" = Some (JStr "NON_REFUNDABLE") ->
         refundable row = JBool false) /\
        (forall v, r !! "cancellationRefund" = Some v ->
                   v <> JStr "NON_REFUNDABLE" ->
                   refundable row = JBool true)) /\
  (forall p,
      o !! "policies" = Some (JObj p) ->
      p !! "refundable" = None ->
      exists row, offer_row read hotel_id (JObj o) = Ok row /\
                  refundable row = JNull) /\
  (o !! "policies" = None ->
   exists row, offer_row read hotel_id (JObj o) = Ok row /\ refundable row = JNull).
Proof.
  intros Ht Hc. split; [|split].
  - intros p r Hp Hr. eexists. split.
    + eapply offer_row_dict; eauto using refundable_of_entry.
    + simpl. unfold dict_get. split.
      * intros ->. reflexivity.
      * intros v -> Hv. simpl. rewrite eq_str_false by assumption. reflexivity.
  - intros p Hp Hr. eexists. split.
    + eapply offer_row_dict; eauto using refundable_of_no_key.
    + reflexivity.
  - intros Hp. eexists. split.
    + eapply offer_row_dict; eauto using refundable_of_no_policies.
    + reflexivity.
Qed.

Lemma refundable_from_policies_witness :
  exists row, offer_row read_ymd (JStr "HNNCE001") (JObj sample_offer) = Ok row /\
              refundable row = JBool false.
Proof.
  destruct (refundable_from_policies read_ymd (JStr "HNNCE001") sample_offer
              (JStr "240.00") (JStr "EUR") eq_refl eq_refl) as [H _].
  destruct (H (<["refundable" :=
                 JObj (<["cancellationRefund" := JStr "NON_REFUNDABLE"]> ∅)]> ∅)
              (<["cancellationRefund" := JStr "NON_REFUNDABLE"]> ∅)
              eq_refl eq_refl) as (row & Hrow & Hfalse & _).
  exists row. split; [exact Hrow | apply Hfalse; reflexivity].
Defined.





(** The whole function on a one-batch, one-hotel, two-offer payload. *)
Example flatten_offers_sample :
  flatten_offers read_ymd
    (<["batches" := JArr [JObj (<["response" := JObj (<["data" := JArr
        [JObj (<["hotel" := JObj (<["hotelId" := JStr "HNNCE001"]> ∅)]>
              (<["offers" := JArr [JObj sample_offer;
                                   JObj bare_refundable_offer]]> ∅))]]> ∅)]> ∅)]]> ∅)
  = Ok [ {| hotelId := JStr "HNNCE001"; checkInDate := JStr "2025-09-20";
            nights := JInt 2; totalPrice := JStr "240.00";
            currency := JStr "EUR"; refundable := JBool false |};
         {| hotelId := JStr "HNNCE001"; checkInDate := JStr "2025-09-22";
            nights := JInt (-2); totalPrice := JNull;
            currency := JNull; refundable := JBool true |} ].
Proof. vm_compute. reflexivity. Qed.

End flatten_spec.

(* ================================================================== *)
(** * Chunking *)
(* ================================================================== *)

Module chunks_spec.
Import amadeus_client vocab.

Section chunking.
Context {A : Type}.
Implicit Types (l : list A) (size c k : nat).

Lemma slice_window l (i size : nat) :
  slice l i (i + size) = take size (drop i l).
Proof. unfold slice. f_equal. lia. Qed.

Lemma windows_succ l size c :
  windows l size (S c) = take size l :: windows (drop size l) size c.
Proof.
  unfold windows. rewrite <- !list_fmap_compose.
  cbn [seq]. rewrite fmap_cons. f_equal.
  - unfold compose. rewrite slice_window, Nat.mul_0_l. reflexivity.
  - rewrite <- fmap_S_seq, <- list_fmap_compose.
    apply list_fmap_ext. intros _ k _. unfold compose.
    rewrite !slice_window, drop_drop. reflexivity.
Qed.

Lemma concat_windows l size c :
  (length l <= c * size)%nat -> concat (windows l size c) = l.
Proof.
  revert l. induction c as [|c IH]; intros l Hl.
  - destruct l; [reflexivity | simpl in Hl; lia].
  - rewrite windows_succ. simpl. rewrite IH.
    + apply take_drop.
    + rewrite length_drop. lia.
Qed.

Lemma length_windows l size c : length (windows l size c) = c.
Proof. unfold windows. rewrite !length_fmap. apply length_seq. Qed.

Lemma windows_sizes l size c :
  (0 < size)%nat -> (c * size < length l + size)%nat ->
  Forall (fun w => (0 < length w <= size)%nat) (windows l size c).
Proof.
  intros Hs. revert l. induction c as [|c IH]; intros l Hc.
  - constructor.
  - rewrite windows_succ. constructor.
    + rewrite length_take. simpl in Hc. lia.
    + apply IH. rewrite length_drop. simpl in Hc. lia.
Qed.

Lemma ceil_div_bounds (n size : nat) :
  (0 < size)%nat ->
  let c := ((n + size - 1) / size)%nat in
  (n <= c * size)%nat /\ (c * size < n + size)%nat.
Proof.
  intros Hs c.
  pose proof (Nat.div_mod_eq (n + size - 1) size) as E.
  pose proof (Nat.mod_upper_bound (n + size - 1) size ltac:(lia)) as U.
  fold c in E. nia.
Qed.

End chunking.

Lemma _chunks_windows (ids : list string) (size : nat) :
  (0 < size)%nat ->
  _chunks ids size = Ok (windows ids size ((length ids + size - 1) / size)).
Proof.
  intros Hs. unfold _chunks, range_step, windows.
  destruct size; [lia | reflexivity].
Qed.

(** Chunking partitions the sequence: the chunks concatenate to it in
    order, there are ceil(L/size) of them, none is empty and none is longer
    than [size]. *)
Lemma _chunks_partition (ids : list string) (size : nat) :
  (0 < size)%nat ->
  exists chunks,
    _chunks ids size = Ok chunks /\
    concat chunks = ids /\
    length chunks = ((length ids + size - 1) / size)%nat /\
    Forall (fun c => (0 < length c <= size)%nat) chunks.
Proof.
  intros Hs. eexists. split; [apply _chunks_windows; assumption|].
  destruct (ceil_div_bounds (length ids) size Hs) as [Hlo Hhi].
  split; [|split].
  - apply concat_windows. exact Hlo.
  - apply length_windows.
  - apply windows_sizes; assumption.
Qed.

Example _chunks_by_two :
  _chunks ["a"; "b"; "c"; "d"; "e"] 2 = Ok [["a"; "b"]; ["c"; "d"]; ["e"]].
Proof. reflexivity. Qed.

Example _chunks_45 :
  match _chunks (replicate 45 "H") 20 with
  | Ok cs => length <$> cs
  | Raise _ => []
  end = [20; 20; 5]%nat.
Proof. reflexivity. Qed.

End chunks_spec.

(* ================================================================== *)
(** * The client: what every method leaves untouched *)
(* ================================================================== *)

Module client_facts.
Import amadeus_client vocab.

Lemma same_config_refl s : same_config s s.
Proof. repeat split. Qed.

Lemma same_config_trans s1 s2 s3 :
  same_config s1 s2 -> same_config s2 s3 -> same_config s1 s3.
Proof. unfold same_config. intuition congruence. Qed.

Lemma ok_gets_app evs evs' : ok_gets (evs ++ evs') = ok_gets evs ++ ok_gets evs'.
Proof. apply omap_app. Qed.

Lemma yields_trans s1 s2 s3 l1 l2 :
  yields s1 s2 l1 -> yields s2 s3 l2 -> yields s1 s3 (l1 ++ l2).
Proof.
  intros [C1 (e1 & H1 & Q1)] [C2 (e2 & H2 & Q2)].
  split; [eauto using same_config_trans|].
  exists (e1 ++ e2). rewrite H2, H1, app_assoc, ok_gets_app, Q1, Q2. done.
Qed.

Lemma yields_record s e :
  yields s (record e s) (ok_gets [e]).
Proof. split; [repeat split|]. exists [e]. done. Qed.

Lemma quiet_refl s : quiet s s.
Proof.
  split; [apply same_config_refl|]. exists []. rewrite app_nil_r. done.
Qed.

Lemma quiet_trans s1 s2 s3 : quiet s1 s2 -> quiet s2 s3 -> quiet s1 s3.
Proof. intros H1 H2. apply (yields_trans _ _ _ [] [] H1 H2). Qed.

Lemma preserves_ret {A} (a : A) : preserves (ret a).
Proof. intros s. apply quiet_refl. Qed.

Lemma preserves_raise {A} (e : Exn) : preserves (@raise A e).
Proof. intros s. apply quiet_refl. Qed.

Lemma preserves_bind {A B} (m : M A) (k : A -> M B) :
  preserves m -> (forall a, preserves (k a)) -> preserves (bind m k).
Proof.
  intros Hm Hk s. unfold bind. specialize (Hm s).
  destruct (m s) as [[a|e] s1]; simpl in *; [|assumption].
  eapply quiet_trans; [eassumption | apply Hk].
Qed.

Lemma quiet_record s e : answered e = None -> quiet s (record e s).
Proof.
  intros He. split; [repeat split|]. exists [e]. split; [reflexivity|].
  unfold ok_gets. simpl. rewrite He. reflexivity.
Qed.

(** [time.sleep] on a duration it accepts and on one it refuses. *)
Lemma time_sleep_ok secs s :
  sleepable secs = true -> time_sleep secs s = (Ok (), record (Sleep secs) s).
Proof.
  unfold sleepable, time_sleep, SLEEP_MAX. intros H.
  destruct (Z.ltb_spec secs 0); [lia|].
  destruct (Z.ltb_spec 9223372036 secs); [lia | reflexivity].
Qed.

Lemma time_sleep_refused secs s :
  sleepable secs = false ->
  time_sleep secs s =
    (Raise (if secs <? 0 then ValueError else OverflowError), s).
Proof.
  unfold sleepable, time_sleep, SLEEP_MAX. intros H.
  destruct (Z.ltb_spec secs 0); [reflexivity|].
  destruct (Z.ltb_spec 9223372036 secs); [reflexivity | lia].
Qed.

Lemma time_sleep_run secs s :
  time_sleep secs s = (Ok (), record (Sleep secs) s) \/
  exists e, time_sleep secs s = (Raise e, s).
Proof.
  destruct (sleepable secs) eqn:E.
  - left. apply time_sleep_ok, E.
  - right. eexists. apply time_sleep_refused, E.
Qed.

(** Below the retry ceiling the backoff is 0, 1 or 2 seconds. *)
Lemma sleep_backoff_below attempt s :
  attempt < MAX_RETRIES ->
  _sleep_backoff attempt s = (Ok (), record (Sleep (2 ^ (attempt - 1))) s).
Proof.
  intros Ha. unfold _sleep_backoff, RETRY_BACKOFF. apply time_sleep_ok.
  unfold sleepable, MAX_RETRIES in *.
  assert (0 <= 2 ^ (attempt - 1) <= 2); [|lia].
  destruct (Z.le_gt_cases 0 (attempt - 1)).
  - split; [apply Z.pow_nonneg; lia|].
    change 2 with (2 ^ 1) at 2. apply Z.pow_le_mono_r; lia.
  - rewrite Z.pow_neg_r by lia. lia.
Qed.

Lemma json_body_parsed resp s : json_body resp s = (parsed resp, s).
Proof. unfold json_body, parsed. destruct (json resp); reflexivity. Qed.

Lemma preserves_time_sleep secs : preserves (time_sleep secs).
Proof.
  intros s. destruct (time_sleep_run secs s) as [-> | [e ->]].
  - apply quiet_record. reflexivity.
  - apply quiet_refl.
Qed.

Lemma preserves_json_body resp : preserves (json_body resp).
Proof. intros s. rewrite json_body_parsed. apply quiet_refl. Qed.

Lemma preserves_lift {A} (o : Outcome A) : preserves (lift o).
Proof. destruct o; [apply preserves_ret | apply preserves_raise]. Qed.

Lemma preserves_session_post url data : preserves (session_post url data).
Proof. intros s. apply quiet_record. reflexivity. Qed.

Lemma preserves_sleep_backoff attempt : preserves (_sleep_backoff attempt).
Proof. apply preserves_time_sleep. Qed.

Lemma preserves_handle_rate_limit resp attempt :
  preserves (_handle_rate_limit resp attempt).
Proof.
  unfold _handle_rate_limit. apply preserves_bind.
  - repeat case_match; auto using preserves_ret, preserves_raise.
  - intros delay. apply preserves_bind; [apply preserves_time_sleep|].
    intros _. case_match; auto using preserves_ret, preserves_raise.
Qed.

Lemma preserves_post_form_loop url data attempts :
  preserves (_post_form_loop url data attempts).
Proof.
  induction attempts as [|attempt rest IH]; simpl.
  - apply preserves_raise.
  - apply preserves_bind; [apply preserves_session_post|]. intros resp.
    repeat case_match;
      auto using preserves_json_body, preserves_raise, preserves_bind,
                 preserves_handle_rate_limit, preserves_sleep_backoff.
Qed.

Lemma quiet_store_token tok s : quiet s (store_token tok s).
Proof.
  split; [repeat split|]. exists []. simpl. rewrite app_nil_r. done.
Qed.

Lemma preserves_get_access_token force : preserves (get_access_token force).
Proof.
  intros s. unfold get_access_token. case_match; [apply quiet_refl|].
  apply preserves_bind; [apply preserves_post_form_loop|].
  intros data. apply preserves_bind; [apply preserves_lift|].
  intros token. case_match; [apply preserves_raise|].
  intros s1. apply quiet_store_token.
Qed.

Lemma preserves_headers : preserves _headers.
Proof.
  intros s. unfold _headers.
  apply preserves_bind.
  - case_match; [|apply preserves_ret].
    apply preserves_bind; [apply preserves_get_access_token|].
    intros _. apply preserves_ret.
  - intros _ s1. apply quiet_refl.
Qed.

End client_facts.

Module offers_spec.
Import amadeus_client vocab client_facts chunks_spec.

(** One iteration of the attempt loop of [_get], spelled out. *)
Lemma get_loop_step url params attempt rest s :
  _get_loop url params (attempt :: rest) s =
    match _headers s with
    | (Raise e, s1) => (Raise e, s1)
    | (Ok hdr, s1) =>
        let req := GET url params hdr (timeout s1) in
        let resp := _session s1 (history s1) req in
        let s2 := record (Call req resp) s1 in
        (if status_code resp =? 429 then
           _handle_rate_limit resp attempt ;;; _get_loop url params rest
         else if (status_code resp =? 401) && (attempt <? MAX_RETRIES) then
           get_access_token true ;;; _get_loop url params rest
         else if is_2xx (status_code resp) then json_body resp
         else if is_5xx (status_code resp) && (attempt <? MAX_RETRIES) then
           _sleep_backoff attempt ;;; _get_loop url params rest
         else raise (RuntimeError (GetFailed url (status_code resp)
                                     (substring 0 500 (text resp))))) s2
    end.
Proof.
  simpl. unfold bind at 1. destruct (_headers s) as [[hdr|e] s1]; reflexivity.
Qed.

Lemma get_loop_ok url params attempts s j s' :
  _get_loop url params attempts s = (Ok j, s') ->
  yields s s' [(params, j)].
Proof.
  revert s. induction attempts as [|attempt rest IH]; intros s H.
  - discriminate.
  - rewrite get_loop_step in H.
    pose proof (preserves_headers s) as Q1.
    destruct (_headers s) as [[hdr|e] s1]; simpl in Q1; [|discriminate].
    cbv zeta in H.
    set (req := GET url params hdr (timeout s1)) in *.
    set (resp := _session s1 (history s1) req) in *.
    set (s2 := record (Call req resp) s1) in *.
    pose proof (yields_record s1 (Call req resp)) as Q2. fold s2 in Q2.
    unfold ok_gets in Q2. cbn [omap list_omap answered req] in Q2.
    assert (Hcont : forall {A} (m : M A),
               preserves m -> is_2xx (status_code resp) = false ->
               bind m (fun _ => _get_loop url params rest) s2 = (Ok j, s') ->
               yields s s' [(params, j)]).
    { intros A m Hm H2 Hb. unfold bind in Hb. pose proof (Hm s2) as Q3.
      destruct (m s2) as [[a|e] s3]; simpl in Q3; [|discriminate].
      rewrite H2 in Q2.
      apply IH in Hb.
      apply (yields_trans _ _ _ [] _ Q1).
      apply (yields_trans _ _ _ [] _ Q2).
      apply (yields_trans _ _ _ [] _ Q3). exact Hb. }
    destruct (Z.eqb_spec (status_code resp) 429) as [E429|N429].
    { eapply Hcont; [apply preserves_handle_rate_limit | | exact H].
      rewrite E429. reflexivity. }
    destruct ((status_code resp =? 401) && (attempt <? MAX_RETRIES)) eqn:E401.
    { eapply Hcont; [apply preserves_get_access_token | | exact H].
      apply andb_true_iff in E401 as [E _]. apply Z.eqb_eq in E.
      rewrite E. reflexivity. }
    destruct (is_2xx (status_code resp)) eqn:E2.
    { rewrite json_body_parsed in H. unfold parsed in H.
      destruct (json resp) as [body|] eqn:Ej; [|discriminate].
      injection H as <- <-. simpl in Q2.
      apply (yields_trans _ _ _ [] _ Q1). exact Q2. }
    destruct (is_5xx (status_code resp) && (attempt <? MAX_RETRIES)) eqn:E5.
    { eapply Hcont; [apply preserves_sleep_backoff | reflexivity | exact H]. }
    discriminate.
Qed.

Lemma get_ok url params s j s' :
  _get url params s = (Ok j, s') -> yields s s' [(params, j)].
Proof. apply get_loop_ok. Qed.


Lemma offers_loop_ok chunks check_in nights adults rooms currency acc s r s' :
  offers_loop chunks check_in nights adults rooms currency acc s = (Ok r, s') ->
  exists resps,
    length resps = length chunks /\
    r = acc ++ zip_with batch chunks resps /\
    yields s s'
      (zip ((fun c => offers_params c check_in nights adults rooms currency)
              <$> chunks) resps).
Proof.
  revert acc s. induction chunks as [|chunk rest IH]; intros acc s H; simpl in H.
  - injection H as <- <-. exists []. rewrite app_nil_r.
    split; [reflexivity|]. split; [reflexivity|]. apply quiet_refl.
  - unfold bind in H at 1 2.
    destruct (_get _ _ s) as [[j|e] s1] eqn:Eg; [|discriminate].
    apply get_ok in Eg. apply IH in H as (resps & Hlen & -> & Hy).
    exists (j :: resps). split; [simpl; congruence|]. split.
    + rewrite <- app_assoc. reflexivity.
    + apply (yields_trans _ _ _ [_] _ Eg Hy).
Qed.

(** The batches are the chunks paired with the bodies. *)
Lemma zip_with_batch (chunks : list (list string)) (resps : list Json) :
  zip_with batch chunks resps =
    (fun cr : list string * Json =>
       JObj (<["request_hotel_ids" := JArr (JStr <$> cr.1)]>
             (<["response" := cr.2]> ∅))) <$> zip chunks resps.
Proof.
  revert resps. induction chunks as [|c cs IH]; intros [|r rs];
    try reflexivity.
  simpl. rewrite IH. reflexivity.
Qed.

(** C1: [get_hotel_offers].  On an empty id sequence the result is the
    empty batch list and the client, its request history included, is left
    as it was.  On a non-empty sequence of length L the ids are cut into
    ceil(L/20) chunks, none empty, none longer than 20, concatenating to the
    sequence in order; and whenever the call returns, its batches are, in
    chunk order, the dicts holding the ids of a chunk under
    [request_hotel_ids] and, under [response], the body of the GET that was
    sent with the comma-joined ids of that chunk; these are the answered
    GETs of the call. *)
Theorem get_hotel_offers_batches (hotel_ids : list string) (check_in : string)
    (nights adults rooms : Z) (currency : option string) (s : AmadeusClient) :
  get_hotel_offers [] check_in nights adults rooms currency s
    = (Ok (JObj {["batches" := JArr []]}), s) /\
  (hotel_ids <> [] ->
   exists chunks,
     _chunks hotel_ids 20 = Ok chunks /\
     concat chunks = hotel_ids /\
     length chunks = ((length hotel_ids + 19) / 20)%nat /\
     Forall (fun c => (0 < length c <= 20)%nat) chunks /\
     forall r s',
       get_hotel_offers hotel_ids check_in nights adults rooms currency s
         = (Ok r, s') ->
       exists resps evs,
         length resps = length chunks /\
         r = JObj {["batches" :=
               JArr ((fun cr : list string * Json =>
                        JObj (<["request_hotel_ids" := JArr (JStr <$> cr.1)]>
                              (<["response" := cr.2]> ∅)))
                       <$> zip chunks resps)]} /\
         history s' = history s ++ evs /\
         ok_gets evs =
           zip ((fun c => offers_params c check_in nights adults rooms currency)
                  <$> chunks) resps /\
         Forall2 (fun c p => p.1 !! "hotelIds" = Some (JStr (String.concat "," c)))
                 chunks (ok_gets evs)).
Proof.
  split; [reflexivity|]. intros Hne.
  destruct (_chunks_partition hotel_ids 20 ltac:(lia)) as (chunks & Hc & Hcat & Hlen & Hsz).
  replace (length hotel_ids + 20 - 1)%nat with (length hotel_ids + 19)%nat
    in Hlen by lia.
  exists chunks. repeat (split; [assumption|]).
  intros r s' H. unfold get_hotel_offers in H.
  rewrite bool_decide_eq_false_2, Hc in H by assumption.
  unfold bind in H.
  destruct (offers_loop _ _ _ _ _ _ _ s) as [[bs|e] s1] eqn:El; [|discriminate].
  injection H as <- <-.
  apply offers_loop_ok in El as (resps & Hl & -> & _ & evs & Hh & Hg).
  exists resps, evs. split; [exact Hl|].
  split; [simpl; rewrite zip_with_batch; reflexivity|].
  split; [exact Hh|]. split; [exact Hg|].
  rewrite Hg. clear -Hl. revert resps Hl.
  induction chunks as [|c cs IH]; intros [|p ps] Hl; try discriminate; constructor.
  - simpl. unfold offers_params.
    destruct currency as [cur|]; [destruct (negb (bool_decide (cur = "")))|];
      simplify_map_eq; reflexivity.
  - apply IH. simpl in Hl. congruence.
Qed.

End offers_spec.

Module offers_witness.
Import amadeus_client vocab samples offers_spec.

Lemma get_hotel_offers_batches_witness :
  exists chunks resps,
    concat chunks = replicate 21 "HNNCE001" /\
    length chunks = 2%nat /\ length resps = 2%nat /\
    (get_hotel_offers (replicate 21 "HNNCE001") "2025-09-20" 1 1 1 (Some "EUR")
       (fresh_client healthy_session)).1
    = Ok (JObj {["batches" :=
            JArr ((fun cr : list string * Json =>
                     JObj (<["request_hotel_ids" := JArr (JStr <$> cr.1)]>
                           (<["response" := cr.2]> ∅)))
                    <$> zip chunks resps)]}).
Proof.
  destruct (get_hotel_offers_batches (replicate 21 "HNNCE001") "2025-09-20"
              1 1 1 (Some "EUR") (fresh_client healthy_session)) as [_ H].
  destruct H as (chunks & _ & Hcat & Hlen & _ & Hret); [discriminate|].
  destruct (get_hotel_offers (replicate 21 "HNNCE001") "2025-09-20" 1 1 1
              (Some "EUR") (fresh_client healthy_session)) as [[r|e] s'] eqn:E.
  - destruct (Hret r s' eq_refl) as (resps & evs & Hl & -> & _).
    exists chunks, resps. split; [exact Hcat|]. split; [exact Hlen|].
    split; [rewrite Hl; exact Hlen | reflexivity].
  - exfalso. apply (f_equal fst) in E. vm_compute in E. discriminate.
Defined.

End offers_witness.

Module retry_facts.
Import amadeus_client vocab client_facts.

Lemma range_attempts : range 1 (MAX_RETRIES + 1) = [1; 2; 3].
Proof. reflexivity. Qed.

Lemma range_next (a : Z) :
  a < MAX_RETRIES + 1 ->
  range a (MAX_RETRIES + 1) = a :: range (a + 1) (MAX_RETRIES + 1).
Proof.
  intros Ha. unfold range.
  replace (Z.to_nat (MAX_RETRIES + 1 - a))
    with (S (Z.to_nat (MAX_RETRIES + 1 - (a + 1)))) by lia.
  cbn [seq]. rewrite fmap_cons. f_equal; [lia|].
  rewrite <- fmap_S_seq, <- list_fmap_compose.
  apply list_fmap_ext. intros _ k _. simpl. lia.
Qed.

(** ** [keeps_token]: the retry helpers never write the token *)

Lemma keeps_token_ret {A} (a : A) : keeps_token (ret a).
Proof. intros s. reflexivity. Qed.

Lemma keeps_token_raise {A} e : keeps_token (@raise A e).
Proof. intros s. reflexivity. Qed.

Lemma keeps_token_bind {A B} (m : M A) (k : A -> M B) :
  keeps_token m -> (forall a, keeps_token (k a)) -> keeps_token (bind m k).
Proof.
  intros Hm Hk s. unfold bind. specialize (Hm s).
  destruct (m s) as [[a|e] s1]; simpl in *; [|assumption].
  rewrite Hk. assumption.
Qed.

Lemma keeps_token_time_sleep secs : keeps_token (time_sleep secs).
Proof.
  intros s. destruct (time_sleep_run secs s) as [-> | [e ->]]; reflexivity.
Qed.

Lemma keeps_token_sleep_backoff attempt : keeps_token (_sleep_backoff attempt).
Proof. apply keeps_token_time_sleep. Qed.

Lemma keeps_token_json_body resp : keeps_token (json_body resp).
Proof. intros s. rewrite json_body_parsed. reflexivity. Qed.

Lemma keeps_token_lift {A} (o : Outcome A) : keeps_token (lift o).
Proof. destruct o; intros s; reflexivity. Qed.

Lemma keeps_token_session_post url data : keeps_token (session_post url data).
Proof. intros s. reflexivity. Qed.

Lemma keeps_token_handle_rate_limit resp attempt :
  keeps_token (_handle_rate_limit resp attempt).
Proof.
  unfold _handle_rate_limit. apply keeps_token_bind.
  - repeat case_match; auto using keeps_token_ret, keeps_token_raise.
  - intros delay. apply keeps_token_bind; [apply keeps_token_time_sleep|].
    intros _. case_match; auto using keeps_token_ret, keeps_token_raise.
Qed.

Lemma keeps_token_post_form_loop url data attempts :
  keeps_token (_post_form_loop url data attempts).
Proof.
  induction attempts as [|attempt rest IH]; simpl.
  - apply keeps_token_raise.
  - apply keeps_token_bind; [apply keeps_token_session_post|]. intros resp.
    repeat case_match;
      auto using keeps_token_json_body, keeps_token_raise, keeps_token_bind,
                 keeps_token_handle_rate_limit, keeps_token_sleep_backoff.
Qed.

(** ** The rate-limit handler *)

Lemma isdigit_decimal v : decimal v = true -> isdigit v = true.
Proof.
  unfold decimal, isdigit. intros [H1 H2]%andb_true_iff. rewrite H1. simpl.
  clear H1. induction v as [|c v IH]; [reflexivity|]. simpl in *.
  apply andb_true_iff in H2 as [Hc Hv]. rewrite IH by assumption.
  unfold char_isdigit. rewrite Hc. reflexivity.
Qed.

Lemma isdigit_nonempty v : isdigit v = true -> negb (bool_decide (v = "")) = true.
Proof. unfold isdigit. intros [H _]%andb_true_iff. exact H. Qed.

Lemma decimal_from_nonneg v acc :
  all_chars is_ascii_digit v = true -> 0 <= acc -> 0 <= decimal_from acc v.
Proof.
  revert acc. induction v as [|c v IH]; simpl; intros acc Hd Hacc; [exact Hacc|].
  apply andb_true_iff in Hd as [Hc Hv]. apply IH; [exact Hv|].
  unfold is_ascii_digit in Hc. apply andb_true_iff in Hc as [H1 H2].
  apply N.leb_le in H1. apply N.leb_le in H2. unfold digit_value. lia.
Qed.

Lemma policy_delay_nonneg hint attempt : 0 <= policy_delay hint attempt.
Proof.
  unfold policy_delay. destruct hint as [v|]; [|lia].
  destruct (decimal v) eqn:Hd; [|lia].
  apply decimal_from_nonneg; [|lia].
  unfold decimal in Hd. apply andb_true_iff in Hd as [_ H]. exact H.
Qed.

(** What the handler computes as [delay]: [int] raises on digits that are
    not decimal and on more than 4300 digits. *)
Lemma handle_rate_limit_delay resp attempt s :
  _handle_rate_limit resp attempt s =
    if plain_hint (retry_after resp) then
      (time_sleep (policy_delay (retry_after resp) attempt) ;;;
       if MAX_RETRIES <=? attempt then raise AmadeusRateLimitError
       else ret ()) s
    else (Raise ValueError, s).
Proof.
  unfold plain_hint, _handle_rate_limit, policy_delay, RETRY_BACKOFF.
  destruct (retry_after resp) as [v|]; [|reflexivity].
  destruct (isdigit v) eqn:Hd.
  - rewrite (isdigit_nonempty v Hd). cbn [andb negb orb].
    unfold int_of_str, INT_MAX_STR_DIGITS. fold (decimal v).
    destruct (decimal v) eqn:Hc; [|reflexivity]. cbn [andb].
    destruct (Z.of_nat (String.length v) <=? 4300); reflexivity.
  - rewrite andb_false_r. cbn [negb orb].
    destruct (decimal v) eqn:Hc; [|reflexivity].
    apply isdigit_decimal in Hc. congruence.
Qed.

(** With a plain header whose delay can be slept the handler sleeps the
    policy delay, then raises on the last attempt and returns otherwise. *)
Lemma handle_rate_limit_plain resp attempt s :
  plain_hint (retry_after resp) = true ->
  sleepable (policy_delay (retry_after resp) attempt) = true ->
  _handle_rate_limit resp attempt s =
    (if MAX_RETRIES <=? attempt then Raise AmadeusRateLimitError else Ok (),
     record (Sleep (policy_delay (retry_after resp) attempt)) s).
Proof.
  intros Hp Hs. rewrite handle_rate_limit_delay, Hp. unfold bind.
  rewrite (time_sleep_ok _ _ Hs).
  destruct (MAX_RETRIES <=? attempt); reflexivity.
Qed.

(** With digits that [int] does not read, [int] raises before any sleep. *)
Lemma handle_rate_limit_odd resp attempt s :
  plain_hint (retry_after resp) = false ->
  _handle_rate_limit resp attempt s = (Raise ValueError, s).
Proof. intros Hp. rewrite handle_rate_limit_delay, Hp. reflexivity. Qed.

(** With a delay beyond what [time.sleep] accepts, [time.sleep] raises and
    nothing is slept. *)
Lemma handle_rate_limit_long resp attempt s :
  plain_hint (retry_after resp) = true ->
  sleepable (policy_delay (retry_after resp) attempt) = false ->
  _handle_rate_limit resp attempt s = (Raise OverflowError, s).
Proof.
  intros Hp Hs. rewrite handle_rate_limit_delay, Hp. unfold bind.
  rewrite (time_sleep_refused _ _ Hs).
  pose proof (policy_delay_nonneg (retry_after resp) attempt) as H0.
  destruct (Z.ltb_spec (policy_delay (retry_after resp) attempt) 0);
    [lia | reflexivity].
Qed.

(** The three together. *)
Lemma handle_rate_limit_run resp attempt s :
  _handle_rate_limit resp attempt s =
    if usable_hint (retry_after resp) attempt then
      (if MAX_RETRIES <=? attempt then Raise AmadeusRateLimitError else Ok (),
       record (Sleep (policy_delay (retry_after resp) attempt)) s)
    else
      (Raise (if plain_hint (retry_after resp) then OverflowError
              else ValueError), s).
Proof.
  unfold usable_hint. destruct (plain_hint (retry_after resp)) eqn:Hp.
  - destruct (sleepable _) eqn:Hs; cbn [andb].
    + apply handle_rate_limit_plain; assumption.
    + apply handle_rate_limit_long; assumption.
  - apply handle_rate_limit_odd, Hp.
Qed.

(** ** One iteration of the POST loop *)

Lemma post_form_loop_step url data attempt rest s :
  _post_form_loop url data (attempt :: rest) s =
    let req := POST url data (timeout s) in
    let resp := _session s (history s) req in
    let s1 := record (Call req resp) s in
    (if status_code resp =? 429 then
       _handle_rate_limit resp attempt ;;; _post_form_loop url data rest
     else if is_2xx (status_code resp) then json_body resp
     else if is_5xx (status_code resp) && (attempt <? MAX_RETRIES) then
       _sleep_backoff attempt ;;; _post_form_loop url data rest
     else raise (AmadeusAuthError
                   (AuthRequestFailed (status_code resp)
                                      (substring 0 500 (text resp))))) s1.
Proof. reflexivity. Qed.

(** ** The token *)

Lemma get_access_token_cached s :
  truthy (_access_token s) = true ->
  get_access_token false s = (Ok (_access_token s), s).
Proof. intros H. unfold get_access_token. rewrite H. reflexivity. Qed.

Lemma get_access_token_exchange force s :
  force = true \/ truthy (_access_token s) = false ->
  get_access_token force s =
    match _post_form AMADEUS_AUTH_URL (credentials_form s) s with
    | (Raise e, s1) => (Raise e, s1)
    | (Ok data, s1) =>
        match get data "access_token" with
        | Raise e => (Raise e, s1)
        | Ok token =>
            if truthy token then (Ok token, store_token token s1)
            else (Raise (AmadeusAuthError (MissingAccessToken data)), s1)
        end
    end.
Proof.
  intros H. unfold get_access_token.
  assert (truthy (_access_token s) && negb force = false) as ->.
  { destruct H as [-> | ->]; [apply andb_false_r | reflexivity]. }
  unfold bind. fold (credentials_form s).
  destruct (_post_form _ _ s) as [[data|e] s1]; [|reflexivity].
  destruct (get data "access_token") as [token|e]; [|reflexivity]. simpl.
  destruct (truthy token); reflexivity.
Qed.

Lemma get_access_token_ok force s tok s' :
  get_access_token force s = (Ok tok, s') ->
  _access_token s' = tok /\ truthy tok = true.
Proof.
  destruct (truthy (_access_token s) && negb force) eqn:C.
  - unfold get_access_token. rewrite C. intros [= <- <-].
    apply andb_true_iff in C as [C _]. auto.
  - rewrite get_access_token_exchange.
    + destruct (_post_form _ _ s) as [[data|e] s1]; [|discriminate].
      destruct (get data "access_token") as [token|e]; [|discriminate].
      destruct (truthy token) eqn:T; [|discriminate].
      intros [= <- <-]. auto.
    + apply andb_false_iff in C as [C|C]; [right; exact C | left].
      destruct force; [reflexivity | discriminate].
Qed.

Lemma headers_cached s :
  truthy (_access_token s) = true ->
  _headers s = (Ok {["Authorization" := Bearer (_access_token s)]}, s).
Proof. intros H. unfold _headers. rewrite H. reflexivity. Qed.

Lemma headers_ok s hdr s1 :
  _headers s = (Ok hdr, s1) ->
  truthy (_access_token s1) = true /\
  hdr = {["Authorization" := Bearer (_access_token s1)]}.
Proof.
  unfold _headers. destruct (truthy (_access_token s)) eqn:T; simpl.
  - intros [= <- <-]. auto.
  - unfold bind.
    destruct (get_access_token false s) as [[tok|e] s2] eqn:E; [|discriminate].
    simpl. intros [= <- <-]. apply get_access_token_ok in E as [-> ?]. auto.
Qed.

End retry_facts.

Module get_spec.
Import amadeus_client vocab client_facts retry_facts offers_spec.

Lemma is_5xx_other status :
  is_5xx status = true ->
  (status =? 429) = false /\ (status =? 401) = false /\ is_2xx status = false.
Proof. unfold is_5xx, is_2xx. lia. Qed.

(** Once the headers could be built, the loop may as well start from the
    state they left: the token is cached there. *)
Lemma get_loop_headers url params attempt rest s hdr s1 :
  _headers s = (Ok hdr, s1) ->
  _get_loop url params (attempt :: rest) s =
  _get_loop url params (attempt :: rest) s1.
Proof.
  intros Hh. destruct (headers_ok _ _ _ Hh) as [T ->].
  rewrite !get_loop_step, Hh, (headers_cached s1 T). reflexivity.
Qed.

(** An attempt that starts with a cached token, spelled out. *)
Lemma get_loop_cached url params attempt rest s :
  truthy (_access_token s) = true ->
  _get_loop url params (attempt :: rest) s =
    let req := GET url params (bearer (_access_token s)) (timeout s) in
    let resp := answer s req in
    (if status_code resp =? 429 then
       _handle_rate_limit resp attempt ;;; _get_loop url params rest
     else if (status_code resp =? 401) && (attempt <? MAX_RETRIES) then
       get_access_token true ;;; _get_loop url params rest
     else if is_2xx (status_code resp) then json_body resp
     else if is_5xx (status_code resp) && (attempt <? MAX_RETRIES) then
       _sleep_backoff attempt ;;; _get_loop url params rest
     else raise (RuntimeError (GetFailed url (status_code resp)
                                 (substring 0 500 (text resp)))))
      (record (Call req resp) s).
Proof.
  intros cached. rewrite get_loop_step, (headers_cached s cached). reflexivity.
Qed.

(** Answered 5xx before the last attempt: back off, then go on. *)
Lemma get_loop_5xx_retry url params attempt rest s :
  truthy (_access_token s) = true ->
  let req := GET url params (bearer (_access_token s)) (timeout s) in
  let resp := answer s req in
  is_5xx (status_code resp) = true -> attempt < MAX_RETRIES ->
  _get_loop url params (attempt :: rest) s =
  _get_loop url params rest
    (record (Sleep (2 ^ (attempt - 1))) (record (Call req resp) s)).
Proof.
  intros cached req resp H5 Ha. rewrite get_loop_cached by exact cached.
  cbv zeta. fold req. fold resp.
  destruct (is_5xx_other _ H5) as (-> & -> & ->). rewrite H5.
  rewrite (proj2 (Z.ltb_lt _ _) Ha). cbn [andb]. unfold bind.
  rewrite (sleep_backoff_below _ _ Ha). reflexivity.
Qed.

(** Answered 5xx on the last attempt: give up. *)
Lemma get_loop_5xx_last url params attempt rest s :
  truthy (_access_token s) = true ->
  let req := GET url params (bearer (_access_token s)) (timeout s) in
  let resp := answer s req in
  is_5xx (status_code resp) = true -> MAX_RETRIES <= attempt ->
  _get_loop url params (attempt :: rest) s =
    (Raise (RuntimeError (GetFailed url (status_code resp)
                            (substring 0 500 (text resp)))),
     record (Call req resp) s).
Proof.
  intros cached req resp H5 Ha. rewrite get_loop_cached by exact cached.
  cbv zeta. fold req. fold resp.
  destruct (is_5xx_other _ H5) as (-> & -> & ->). rewrite H5.
  rewrite (proj2 (Z.ltb_ge _ _) Ha). reflexivity.
Qed.

(** C4: three consecutive 5xx answers (in particular three 500s).  Once
    the request headers are built, the GET is sent exactly three times, the
    client sleeps 1 second after the first answer and 2 seconds after the
    second, and the call ends by raising [RuntimeError] with the status and
    the first 500 characters of the last body.  With a token already cached
    building the headers sends nothing, so these three GETs are all the
    session sees. *)
Theorem get_three_server_errors (url : string) (params : gmap string Json)
    (s s1 : AmadeusClient) (hdr : gmap string HeaderValue) :
  _headers s = (Ok hdr, s1) ->
  let req := GET url params hdr (timeout s1) in
  let r1 := answer s1 req in
  let s2 := record (Sleep 1) (record (Call req r1) s1) in
  let r2 := answer s2 req in
  let s3 := record (Sleep 2) (record (Call req r2) s2) in
  let r3 := answer s3 req in
  let trace := [Call req r1; Sleep 1; Call req r2; Sleep 2; Call req r3] in
  is_5xx (status_code r1) = true ->
  is_5xx (status_code r2) = true ->
  is_5xx (status_code r3) = true ->
  exists s',
    _get url params s =
      (Raise (RuntimeError (GetFailed url (status_code r3)
                              (substring 0 500 (text r3)))), s') /\
    history s' = history s1 ++ trace /\
    gets trace = [r1; r2; r3] /\
    posts trace = [] /\
    sleeps trace = [2 ^ (1 - 1); 2 ^ (2 - 1)] /\
    (truthy (_access_token s) = true -> history s' = history s ++ trace).
Proof.
  intros Hh req r1 s2 r2 s3 r3 trace H1 H2 H3.
  exists (record (Call req r3) s3).
  assert (Htrace : history (record (Call req r3) s3) = history s1 ++ trace).
  { unfold s3, s2, trace. simpl. rewrite <- !app_assoc. reflexivity. }
  split; [|split; [exact Htrace|repeat (split; [reflexivity|])]].
  - destruct (headers_ok _ _ _ Hh) as [T ->].
    unfold _get. rewrite range_attempts, (get_loop_headers _ _ _ _ _ _ _ Hh).
    etransitivity;
      [exact (get_loop_5xx_retry url params 1 [2; 3] s1 T H1 eq_refl)|].
    etransitivity;
      [exact (get_loop_5xx_retry url params 2 [3] s2 T H2 eq_refl)|].
    exact (get_loop_5xx_last url params 3 [] s3 T H3 ltac:(discriminate)).
  - intros T. rewrite (headers_cached s T) in Hh. injection Hh as _ <-.
    exact Htrace.
Qed.

(** ** What a token exchange leaves in the history *)

Lemma gets_app evs evs' : gets (evs ++ evs') = gets evs ++ gets evs'.
Proof. apply omap_app. Qed.

Lemma granted_app evs evs' :
  granted (evs ++ evs') = granted evs ++ granted evs'.
Proof. unfold granted, posts. rewrite omap_app. apply filter_app. Qed.

(** The POST loop sends no GET.  It returns on the first granted exchange,
    with its body, and raises after a granted exchange only when that body
    is not JSON. *)
Lemma post_form_loop_trace url data attempts s out s' :
  _post_form_loop url data attempts s = (out, s') ->
  exists evs,
    history s' = history s ++ evs /\ gets evs = [] /\
    match out with
    | Ok j => exists resp, granted evs = [resp] /\ json resp = Some j
    | Raise e =>
        granted evs = [] \/
        exists resp, granted evs = [resp] /\ json resp = None /\
                     e = JSONDecodeError
    end.
Proof.
  revert s. induction attempts as [|attempt rest IH]; intros s H.
  - injection H as <- <-. exists []. rewrite app_nil_r. auto.
  - rewrite post_form_loop_step in H. cbv zeta in H.
    set (req := POST url data (timeout s)) in *.
    set (resp := _session s (history s) req) in *.
    set (s1 := record (Call req resp) s) in *.
    set (goal := exists evs,
                 history s' = history s ++ evs /\ gets evs = [] /\
                 match out with
                 | Ok j => exists resp, granted evs = [resp] /\ json resp = Some j
                 | Raise e =>
                     granted evs = [] \/
                     exists resp, granted evs = [resp] /\ json resp = None /\
                                  e = JSONDecodeError
                 end).
    assert (Hcont : forall s2 tail,
               history s2 = history s1 ++ tail -> gets tail = [] ->
               granted tail = [] -> is_2xx (status_code resp) = false ->
               _post_form_loop url data rest s2 = (out, s') -> goal).
    { intros s2 tail Ht Hg Hgr H2 Hl.
      apply IH in Hl as (evs & Hh & Hge & Hout).
      exists (Call req resp :: tail ++ evs). split; [|split].
      - rewrite Hh, Ht. unfold s1. simpl. rewrite <- !app_assoc. reflexivity.
      - change (gets ([Call req resp] ++ tail ++ evs) = []).
        rewrite !gets_app, Hg, Hge. reflexivity.
      - assert (granted (Call req resp :: tail ++ evs) = granted evs) as ->.
        { change (granted ([Call req resp] ++ tail ++ evs) = granted evs).
          rewrite !granted_app, Hgr. unfold granted at 1. simpl.
          rewrite filter_cons_False by (rewrite H2; discriminate). reflexivity. }
        exact Hout. }
    assert (Hstop : is_2xx (status_code resp) = false ->
               forall e, out = Raise e -> s' = s1 -> goal).
    { intros H2 e -> ->. exists [Call req resp]. repeat split. left.
      unfold granted. simpl. rewrite filter_cons_False by (rewrite H2; discriminate).
      reflexivity. }
    destruct (Z.eqb_spec (status_code resp) 429) as [E429|N429].
    { assert (H2 : is_2xx (status_code resp) = false) by (rewrite E429; reflexivity).
      unfold bind in H at 1. rewrite handle_rate_limit_run in H.
      destruct (usable_hint (retry_after resp) attempt).
      - destruct (MAX_RETRIES <=? attempt).
        + injection H as <- <-.
          exists [Call req resp; Sleep (policy_delay (retry_after resp) attempt)].
          split; [unfold s1; simpl; rewrite <- !app_assoc; reflexivity|].
          split; [reflexivity|]. left.
          unfold granted. simpl.
          rewrite filter_cons_False by (rewrite H2; discriminate). reflexivity.
        + exact (Hcont (record (Sleep (policy_delay (retry_after resp) attempt)) s1)
                       [Sleep (policy_delay (retry_after resp) attempt)]
                       eq_refl eq_refl eq_refl H2 H).
      - injection H as <- <-. eapply Hstop; eauto. }
    destruct (is_2xx (status_code resp)) eqn:E2.
    { rewrite json_body_parsed in H. injection H as <- <-.
      exists [Call req resp]. repeat split.
      assert (Hg : granted [Call req resp] = [resp]).
      { unfold granted. simpl. rewrite filter_cons_True by exact E2. reflexivity. }
      unfold parsed. destruct (json resp) as [body|] eqn:Ej; eauto 6. }
    destruct (Z.ltb_spec attempt MAX_RETRIES) as [Ha|Ha].
    + destruct (is_5xx (status_code resp)); cbn [andb] in H.
      * unfold bind in H at 1. rewrite (sleep_backoff_below _ _ Ha) in H.
        exact (Hcont (record (Sleep (2 ^ (attempt - 1))) s1)
                     [Sleep (2 ^ (attempt - 1))]
                     eq_refl eq_refl eq_refl eq_refl H).
      * injection H as <- <-. eapply Hstop; eauto.
    + rewrite andb_false_r in H. injection H as <- <-. eapply Hstop; eauto.
Qed.

Lemma get_access_token_forced_trace s tok s' :
  get_access_token true s = (Ok tok, s') ->
  exists evs,
    history s' = history s ++ evs /\ gets evs = [] /\ length (granted evs) = 1%nat.
Proof.
  rewrite get_access_token_exchange by auto.
  destruct (_post_form _ _ s) as [[data|e] s1] eqn:Ep; [|discriminate].
  apply post_form_loop_trace in Ep as (evs & Hh & Hg & resp & Hgr & _).
  destruct (get data "access_token") as [token|e]; [|discriminate].
  destruct (truthy token); [|discriminate].
  intros [= <- <-]. exists evs. simpl. rewrite Hgr. auto.
Qed.

(** C3: a 401 answered to the first attempt and a 200 to the second.
    Between the two GETs lies exactly one call [get_access_token(force=True)]
    (one granted token exchange, no other GET), the second GET carries the
    fresh token, and its body is returned (when that body is not JSON,
    [json()] raises instead).  A 401 leads to that refresh and a further
    attempt only while [attempt < MAX_RETRIES]; on the last attempt it ends
    the call with [RuntimeError] and no refresh. *)
Theorem get_refreshes_once_on_401 (url : string) (params : gmap string Json)
    (s s1 : AmadeusClient) (hdr1 : gmap string HeaderValue) :
  _headers s = (Ok hdr1, s1) ->
  let req1 := GET url params hdr1 (timeout s1) in
  let r1 := answer s1 req1 in
  let s2 := record (Call req1 r1) s1 in
  status_code r1 = 401 ->
  (forall tok s3,
      get_access_token true s2 = (Ok tok, s3) ->
      let req2 := GET url params (bearer tok) (timeout s3) in
      let r2 := answer s3 req2 in
      status_code r2 = 200 ->
      (forall body, json r2 = Some body ->
         _get url params s = (Ok body, record (Call req2 r2) s3)) /\
      (json r2 = None ->
         _get url params s = (Raise JSONDecodeError, record (Call req2 r2) s3)) /\
      exists evs,
        history s3 = history s2 ++ evs /\
        length (granted evs) = 1%nat /\ gets evs = []) /\
  (forall attempt rest,
      (attempt < MAX_RETRIES ->
       _get_loop url params (attempt :: rest) s =
         (get_access_token true ;;; _get_loop url params rest) s2) /\
      (MAX_RETRIES <= attempt ->
       _get_loop url params (attempt :: rest) s =
         (Raise (RuntimeError (GetFailed url 401 (substring 0 500 (text r1)))),
          s2))) /\
  (truthy (_access_token s) = true -> s1 = s).
Proof.
  intros Hh req1 r1 s2 H401.
  destruct (headers_ok _ _ _ Hh) as [T Ehdr].
  assert (Hstep : forall attempt rest,
             _get_loop url params (attempt :: rest) s =
               (if attempt <? MAX_RETRIES
                then get_access_token true ;;; _get_loop url params rest
                else raise (RuntimeError
                              (GetFailed url 401 (substring 0 500 (text r1)))))
                 s2).
  { intros attempt rest.
    rewrite (get_loop_headers _ _ _ _ _ _ _ Hh), (get_loop_cached _ _ _ _ _ T).
    cbv zeta. fold (bearer (_access_token s1)) in Ehdr. rewrite <- Ehdr.
    fold req1. fold r1. fold s2. rewrite H401. simpl.
    destruct (attempt <? MAX_RETRIES); reflexivity. }
  split; [|split].
  - intros tok s3 Hr req2 r2 H200.
    assert (Hget : _get url params s = (parsed r2, record (Call req2 r2) s3)).
    { unfold _get. rewrite range_attempts, Hstep.
      change (1 <? MAX_RETRIES) with true. cbv iota.
      unfold bind at 1. rewrite Hr.
      apply get_access_token_ok in Hr as [Et Tt].
      assert (T3 : truthy (_access_token s3) = true) by (rewrite Et; exact Tt).
      rewrite (get_loop_cached _ _ _ _ _ T3). cbv zeta. rewrite Et.
      fold req2. fold r2. rewrite H200. simpl. apply json_body_parsed. }
    unfold parsed in Hget. split; [|split].
    + intros body Hb. rewrite Hb in Hget. exact Hget.
    + intros Hb. rewrite Hb in Hget. exact Hget.
    + apply get_access_token_forced_trace in Hr as (evs & ? & ? & ?). eauto.
  - intros attempt rest. split; intros Ha; rewrite Hstep.
    + rewrite (proj2 (Z.ltb_lt _ _) Ha). reflexivity.
    + rewrite (proj2 (Z.ltb_ge _ _) Ha). reflexivity.
  - intros Tc. rewrite (headers_cached s Tc) in Hh. injection Hh as _ <-.
    reflexivity.
Qed.

End get_spec.

Module rate_limit_spec.
Import amadeus_client vocab samples.
Import client_facts retry_facts offers_spec get_spec.

Example policy_delay_five attempt : policy_delay (Some "5") attempt = 5.
Proof. reflexivity. Qed.

Example policy_delay_absent : (policy_delay None) <$> [1; 2; 3] = [2; 4; 8].
Proof. reflexivity. Qed.

Example policy_delay_http_date :
  policy_delay (Some "Wed, 21 Oct 2015 07:28:00 GMT") 2 = 4.
Proof. reflexivity. Qed.

Example superscript_two_isdigit :
  isdigit superscript_two = true /\ int_of_str superscript_two = Raise ValueError /\
  plain_hint (Some superscript_two) = false.
Proof. repeat split. Qed.

Example long_hint_not_slept :
  usable_hint (Some "9223372037") 1 = false /\
  _handle_rate_limit (reply 429 (Some "9223372037") ∅) 1 throttled_client
    = (Raise OverflowError, throttled_client).
Proof. split; reflexivity. Qed.

(** The rate-limit policy on headers the handler can act on (absent, not
    all digits, or a decimal number that [int] reads and [time.sleep]
    accepts): a 429 makes the client sleep the announced seconds, or
    max(1, 2^attempt) without a usable announcement; then the last attempt
    raises [AmadeusRateLimitError] and any earlier one goes on with the next
    attempt of the same request. *)
Lemma rate_limit_policy_get url params attempt rest s :
  truthy (_access_token s) = true ->
  let req := GET url params (bearer (_access_token s)) (timeout s) in
  let resp := answer s req in
  let s2 := record (Sleep (policy_delay (retry_after resp) attempt))
                   (record (Call req resp) s) in
  status_code resp = 429 ->
  usable_hint (retry_after resp) attempt = true ->
  _get_loop url params (attempt :: rest) s =
    if MAX_RETRIES <=? attempt then (Raise AmadeusRateLimitError, s2)
    else _get_loop url params rest s2.
Proof.
  intros T req resp s2 H429 Hp. rewrite (get_loop_cached _ _ _ _ _ T).
  cbv zeta. fold req. fold resp. rewrite H429. simpl.
  unfold bind at 1. rewrite handle_rate_limit_run, Hp.
  destruct (MAX_RETRIES <=? attempt); reflexivity.
Qed.

Lemma rate_limit_policy_post url data attempt rest s :
  let req := POST url data (timeout s) in
  let resp := answer s req in
  let s2 := record (Sleep (policy_delay (retry_after resp) attempt))
                   (record (Call req resp) s) in
  status_code resp = 429 ->
  usable_hint (retry_after resp) attempt = true ->
  _post_form_loop url data (attempt :: rest) s =
    if MAX_RETRIES <=? attempt then (Raise AmadeusRateLimitError, s2)
    else _post_form_loop url data rest s2.
Proof.
  intros req resp s2 H429 Hp. rewrite post_form_loop_step. cbv zeta.
  fold req. fold (answer s req). fold resp. rewrite H429. simpl.
  unfold bind at 1. rewrite handle_rate_limit_run, Hp.
  destruct (MAX_RETRIES <=? attempt); reflexivity.
Qed.

(** The attempt after [attempt] in [range(1, MAX_RETRIES + 1)] is
    [attempt + 1]: a rate-limited attempt below the ceiling is followed by
    the same request with the counter incremented. *)
Lemma rate_limited_get_retries url params attempt s :
  truthy (_access_token s) = true ->
  let req := GET url params (bearer (_access_token s)) (timeout s) in
  let resp := answer s req in
  let s2 := record (Sleep (policy_delay (retry_after resp) attempt))
                   (record (Call req resp) s) in
  status_code resp = 429 ->
  usable_hint (retry_after resp) attempt = true ->
  (attempt < MAX_RETRIES ->
   _get_loop url params (range attempt (MAX_RETRIES + 1)) s =
   _get_loop url params (range (attempt + 1) (MAX_RETRIES + 1)) s2) /\
  (attempt = MAX_RETRIES ->
   _get_loop url params (range attempt (MAX_RETRIES + 1)) s =
   (Raise AmadeusRateLimitError, s2)).
Proof.
  intros T req resp s2 H429 Hp. split; intros Ha.
  - rewrite range_next by lia.
    rewrite (rate_limit_policy_get _ _ _ _ _ T H429 Hp).
    rewrite (proj2 (Z.leb_gt _ _) Ha). reflexivity.
  - rewrite range_next by lia.
    rewrite (rate_limit_policy_get _ _ _ _ _ T H429 Hp).
    rewrite (proj2 (Z.leb_le _ _)) by lia. reflexivity.
Qed.

(** C2 (the code departs from it): a 429 whose Retry-After header is the
    superscript digit U+00B2.  [isdigit] accepts the header, [int] rejects
    it, and [ValueError] leaves the handler before any sleep: the client
    neither sleeps the announced seconds, nor max(1, 2^attempt), nor
    raises [AmadeusRateLimitError], nor retries. *)
Theorem rate_limit_superscript_hint (attempt : Z) (s : AmadeusClient) :
  _handle_rate_limit (reply 429 (Some superscript_two) ∅) attempt s
    = (Raise ValueError, s) /\
  (exists s',
      _get "/v1/hotels" ∅ odd_hint_client = (Raise ValueError, s') /\
      sleeps (history s') = [] /\ length (gets (history s')) = 1%nat).
Proof.
  split.
  - apply handle_rate_limit_odd. reflexivity.
  - eexists. split; [reflexivity|]. split; reflexivity.
Qed.

End rate_limit_spec.

Module token_spec.
Import amadeus_client vocab samples.
Import client_facts retry_facts offers_spec get_spec.

Lemma posts_app evs evs' : posts (evs ++ evs') = posts evs ++ posts evs'.
Proof. apply omap_app. Qed.

(** When the POST loop has used every attempt it was given, its outcome is
    the [verdict] on the answer to the last one. *)
Lemma post_form_loop_exhausted url data attempts s out s' :
  _post_form_loop url data attempts s = (out, s') ->
  exists evs,
    history s' = history s ++ evs /\
    (length (posts evs) <= length attempts)%nat /\
    (length (posts evs) = length attempts ->
     forall a resp, last attempts = Some a -> last (posts evs) = Some resp ->
                    out = verdict a resp).
Proof.
  revert s. induction attempts as [|attempt rest IH]; intros s H.
  - injection H as <- <-. exists []. rewrite app_nil_r.
    split; [reflexivity|]. split; [reflexivity|]. discriminate.
  - rewrite post_form_loop_step in H. cbv zeta in H.
    set (req := POST url data (timeout s)) in *.
    set (resp := _session s (history s) req) in *.
    set (s1 := record (Call req resp) s) in *.
    assert (Hstop : forall tail,
               posts tail = [] -> history s' = history s1 ++ tail ->
               (rest = [] -> out = verdict attempt resp) ->
               exists evs,
                 history s' = history s ++ evs /\
                 (length (posts evs) <= length (attempt :: rest))%nat /\
                 (length (posts evs) = length (attempt :: rest) ->
                  forall a r, last (attempt :: rest) = Some a ->
                              last (posts evs) = Some r -> out = verdict a r)).
    { intros tail Ht Hh Hv. exists (Call req resp :: tail).
      split; [rewrite Hh; unfold s1; simpl; rewrite <- app_assoc; reflexivity|].
      change (posts (Call req resp :: tail)) with (resp :: posts tail).
      rewrite Ht. simpl. split; [lia|].
      intros Hlen a r Ha Hr. destruct rest; [|discriminate].
      simpl in Ha, Hr. injection Ha as <-. injection Hr as <-. auto. }
    assert (Hcont : forall d,
               _post_form_loop url data rest (record (Sleep d) s1) = (out, s') ->
               verdict attempt resp = Raise (AmadeusAuthError AuthFailedAfterRetries) ->
               exists evs,
                 history s' = history s ++ evs /\
                 (length (posts evs) <= length (attempt :: rest))%nat /\
                 (length (posts evs) = length (attempt :: rest) ->
                  forall a r, last (attempt :: rest) = Some a ->
                              last (posts evs) = Some r -> out = verdict a r)).
    { intros d Hl Hv. destruct rest as [|a2 rest2].
      - injection Hl as <- <-. apply (Hstop [Sleep d]); [reflexivity..|].
        intros _. symmetry. exact Hv.
      - apply IH in Hl as (evs & Hh & Hle & Hlast).
        exists (Call req resp :: Sleep d :: evs).
        split; [rewrite Hh; unfold s1; simpl; rewrite <- !app_assoc; reflexivity|].
        change (posts (Call req resp :: Sleep d :: evs)) with (resp :: posts evs).
        split; [simpl in *; lia|].
        intros Hlen a r Ha Hr.
        assert (Hlen' : length (posts evs) = length (a2 :: rest2))
          by (simpl in *; lia).
        revert Hr Hlen' Hlast.
        destruct (posts evs) as [|p ps]; [discriminate|].
        intros Hr Hlen' Hlast.
        rewrite last_cons_cons in Ha. rewrite last_cons_cons in Hr. eauto. }
    assert (V : verdict attempt resp = verdict attempt resp) by reflexivity.
    unfold verdict at 2 in V. revert V H.
    destruct (Z.eqb_spec (status_code resp) 429) as [E429|N429].
    { intros V H. unfold bind in H at 1.
      rewrite handle_rate_limit_run in H. unfold usable_hint in H.
      revert V H. destruct (plain_hint (retry_after resp)) eqn:Hp;
        [destruct (sleepable (policy_delay (retry_after resp) attempt)) eqn:Hs|];
        cbn [andb].
      - destruct (MAX_RETRIES <=? attempt); intros V H.
        + injection H as <- <-.
          apply (Hstop [Sleep (policy_delay (retry_after resp) attempt)]);
            [reflexivity | reflexivity | intros _; symmetry; exact V].
        + apply (Hcont _ H). exact V.
      - intros V H. injection H as <- <-. apply (Hstop []);
        [reflexivity | symmetry; apply app_nil_r | intros _; symmetry; exact V].
      - intros V H. injection H as <- <-. apply (Hstop []);
        [reflexivity | symmetry; apply app_nil_r | intros _; symmetry; exact V]. }
    destruct (is_2xx (status_code resp)) eqn:E2.
    { intros V H. rewrite json_body_parsed in H.
      injection H as <- <-. apply (Hstop []);
        [reflexivity | symmetry; apply app_nil_r | intros _; symmetry; exact V]. }
    destruct (Z.ltb_spec attempt MAX_RETRIES) as [Ha|Ha].
    + destruct (is_5xx (status_code resp)); cbn [andb]; intros V H.
      * unfold bind in H at 1. rewrite (sleep_backoff_below _ _ Ha) in H.
        apply (Hcont _ H). exact V.
      * injection H as <- <-. apply (Hstop []);
        [reflexivity | symmetry; apply app_nil_r | intros _; symmetry; exact V].
    + rewrite andb_false_r. intros V H.
      injection H as <- <-. apply (Hstop []);
        [reflexivity | symmetry; apply app_nil_r | intros _; symmetry; exact V].
Qed.




Example post_form_long_hint :
  (_post_form AMADEUS_AUTH_URL ∅
     (fresh_client (throttling_session (Some "9223372037")))).1
    = Raise OverflowError /\
  length (posts (history
     (_post_form AMADEUS_AUTH_URL ∅
        (fresh_client (throttling_session (Some "9223372037")))).2)) = 1%nat.
Proof. split; reflexivity. Qed.


(** ** [get_access_token] *)

(** The POST loop starts by sending the form. *)
Lemma post_form_first_event url data s :
  exists evs,
    history (_post_form url data s).2 =
      history s ++ Call (POST url data (timeout s))
                        (answer s (POST url data (timeout s))) :: evs.
Proof.
  unfold _post_form. rewrite range_attempts, post_form_loop_step. cbv zeta.
  set (req := POST url data (timeout s)).
  fold (answer s req). set (resp := answer s req).
  set (s1 := record (Call req resp) s).
  match goal with |- context [(?m s1)] => set (body := m) end.
  assert (Hb : preserves body).
  { unfold body. repeat case_match;
      auto using preserves_json_body, preserves_raise, preserves_bind,
                 preserves_handle_rate_limit, preserves_sleep_backoff,
                 preserves_post_form_loop. }
  destruct (Hb s1) as [_ (evs & Hh & _)]. exists evs.
  rewrite Hh. unfold s1. simpl. rewrite <- app_assoc. reflexivity.
Qed.

(** When the POST loop returns, the last thing that happened is the 2xx
    answer whose body it returns: nothing is sent or slept after it. *)
Lemma post_form_loop_ok_last url data attempts s j s' :
  _post_form_loop url data attempts s = (Ok j, s') ->
  exists req resp,
    last (history s') = Some (Call req resp) /\
    is_2xx (status_code resp) = true /\ json resp = Some j.
Proof.
  revert s. induction attempts as [|attempt rest IH]; intros s H.
  - discriminate.
  - rewrite post_form_loop_step in H. cbv zeta in H.
    set (req := POST url data (timeout s)) in *.
    set (resp := _session s (history s) req) in *.
    set (s1 := record (Call req resp) s) in *.
    destruct (status_code resp =? 429).
    { unfold bind in H at 1.
      destruct (_handle_rate_limit resp attempt s1) as [[[]|e] s2];
        [eauto | discriminate]. }
    destruct (is_2xx (status_code resp)) eqn:E2.
    { rewrite json_body_parsed in H. unfold parsed in H.
      destruct (json resp) as [body|] eqn:Ej; [|discriminate].
      injection H as <- <-. exists req, resp. split; [|auto].
      unfold s1. simpl. apply last_snoc. }
    destruct (is_5xx (status_code resp) && (attempt <? MAX_RETRIES));
      [|discriminate].
    unfold bind in H at 1.
    destruct (_sleep_backoff attempt s1) as [[[]|e] s2];
      [eauto | discriminate].
Qed.

(** C6 as the code has it: [get_access_token(force)].  A cached token is
    returned without touching the session unless [force] is set.  With
    [force], or without a cached token, the client-credentials form is
    posted to the authorization endpoint.  When the exchange returns a JSON
    object, its truthy [access_token] is cached and returned, and without
    one (absent, [None], empty) [AmadeusAuthError] is raised with that 2xx
    answer as the last event (nothing is retried) and the cached token as
    it was.  A body that is JSON but no object raises [AttributeError], and
    whatever the exchange raises (the [JSONDecodeError] of a body that is
    not JSON included) is raised; the cached token stays as it was. *)
Theorem get_access_token_contract (s : AmadeusClient) :
  (truthy (_access_token s) = true ->
   get_access_token false s = (Ok (_access_token s), s)) /\
  (forall force out s1,
      force = true \/ truthy (_access_token s) = false ->
      _post_form AMADEUS_AUTH_URL (credentials_form s) s = (out, s1) ->
      (exists evs,
          history s1 =
            history s ++
              Call (POST AMADEUS_AUTH_URL (credentials_form s) (timeout s))
                   (answer s (POST AMADEUS_AUTH_URL (credentials_form s)
                                   (timeout s))) :: evs) /\
      _access_token s1 = _access_token s /\
      match out with
      | Raise e => get_access_token force s = (Raise e, s1)
      | Ok (JObj data) =>
          let token := dict_get data "access_token" in
          (truthy token = true ->
           get_access_token force s = (Ok token, store_token token s1) /\
           _access_token (store_token token s1) = token) /\
          (truthy token = false ->
           get_access_token force s =
             (Raise (AmadeusAuthError (MissingAccessToken (JObj data))), s1) /\
           exists req resp,
             last (history s1) = Some (Call req resp) /\
             is_2xx (status_code resp) = true /\
             json resp = Some (JObj data))
      | Ok _ => get_access_token force s = (Raise AttributeError, s1)
      end) /\
  (forall data,
      data !! "access_token" = None \/
      data !! "access_token" = Some JNull \/
      data !! "access_token" = Some (JStr "") ->
      truthy (dict_get data "access_token") = false).
Proof.
  split; [apply get_access_token_cached|]. split.
  - intros force out s1 Hf Hp.
    split; [|split].
    + destruct (post_form_first_event AMADEUS_AUTH_URL (credentials_form s) s)
        as [evs Hh].
      rewrite Hp in Hh. eauto.
    + pose proof (keeps_token_post_form_loop AMADEUS_AUTH_URL
                    (credentials_form s) (range 1 (MAX_RETRIES + 1)) s) as Hk.
      unfold _post_form in Hp. rewrite Hp in Hk. exact Hk.
    + rewrite (get_access_token_exchange force s Hf), Hp.
      destruct out as [data|e]; [|reflexivity].
      destruct data; try reflexivity. cbv zeta.
      change (get (JObj m) "access_token")
        with (Ok (A := Json) (dict_get m "access_token")). cbv iota. split.
      * intros ->. auto.
      * intros ->. split; [reflexivity|].
        eapply post_form_loop_ok_last. exact Hp.
  - intros data [H|[H|H]]; unfold dict_get; rewrite H; reflexivity.
Qed.

(** C6 as stated fails: a token exchange answered 200 with the JSON body
    [[]] is a success response without a token field, and what is raised is
    [AttributeError], not [AmadeusAuthError]. *)
Lemma array_body_not_auth_error :
  status_code (answer array_client
                 (POST AMADEUS_AUTH_URL (credentials_form array_client)
                       (timeout array_client))) = 200 /\
  json (answer array_client
          (POST AMADEUS_AUTH_URL (credentials_form array_client)
                (timeout array_client))) = Some (JArr []) /\
  (get_access_token true array_client).1 = Raise AttributeError /\
  ~ exists why,
      (get_access_token true array_client).1 = Raise (AmadeusAuthError why).
Proof.
  split; [reflexivity|]. split; [reflexivity|]. split; [reflexivity|].
  intros [why H]. vm_compute in H. discriminate.
Qed.

Example blank_body_not_auth_error :
  (get_access_token true blank_client).1 = Raise JSONDecodeError /\
  _access_token (get_access_token true blank_client).2 = JStr "tok-0".
Proof. split; reflexivity. Qed.

Lemma get_access_token_contract_witness :
  (get_access_token true tokenless_client).1
    = Raise (AmadeusAuthError (MissingAccessToken (JObj ∅))) /\
  _access_token (get_access_token true tokenless_client).2 = JStr "tok-0".
Proof.
  destruct (get_access_token_contract tokenless_client) as (_ & H & _).
  destruct (H true (Ok (JObj ∅))
              (_post_form AMADEUS_AUTH_URL (credentials_form tokenless_client)
                          tokenless_client).2
              (or_introl eq_refl) eq_refl) as (_ & Htok & _ & Hmiss).
  destruct (Hmiss eq_refl) as [Hget _]. rewrite Hget. split; [reflexivity|].
  exact Htok.
Defined.

End token_spec.

Module get_witness.
Import amadeus_client vocab samples get_spec.

Lemma get_three_server_errors_witness :
  exists s',
    _get "/v1/hotels" ∅ failing_client
      = (Raise (RuntimeError (GetFailed "/v1/hotels" 500 "body")), s') /\
    length (gets (history s')) = 3%nat /\ sleeps (history s') = [1; 2].
Proof.
  destruct (get_three_server_errors "/v1/hotels" ∅ failing_client failing_client
              (bearer (JStr "tok-0")) eq_refl eq_refl eq_refl eq_refl)
    as (s' & Hget & Hh & _).
  exists s'. split; [exact Hget|]. rewrite Hh. split; reflexivity.
Defined.

Lemma get_refreshes_once_on_401_witness :
  exists s',
    _get "/v1/hotels" ∅ expiring_client = (Ok (JObj empty_data), s') /\
    _access_token s' = JStr "tok-1".
Proof.
  destruct (get_refreshes_once_on_401 "/v1/hotels" ∅ expiring_client
              expiring_client (bearer (JStr "tok-0")) eq_refl eq_refl)
    as (H & _ & _).
  destruct (H (JStr "tok-1")
              (get_access_token true
                 (record (Call (GET "/v1/hotels" ∅ (bearer (JStr "tok-0"))
                                    DEFAULT_TIMEOUT)
                               (reply 401 None ∅)) expiring_client)).2
              eq_refl eq_refl) as [Hget _].
  eexists. split; [exact (Hget _ eq_refl) | reflexivity].
Defined.

End get_witness.

(* ================================================================== *)
(** * Further properties of the client *)
(* ================================================================== *)

Module trace_facts.
Import amadeus_client vocab client_facts retry_facts offers_spec get_spec.

(** ** Properties of the appended events that survive sequencing *)

Section appended.
Variable P : list Event -> Prop.
Hypothesis P_nil : P [].
Hypothesis P_app : forall evs evs', P evs -> P evs' -> P (evs ++ evs').

Lemma appends_ret {A} (a : A) : appends P (ret a).
Proof. intros s. exists []. rewrite app_nil_r. auto. Qed.

Lemma appends_raise {A} e : appends P (@raise A e).
Proof. intros s. exists []. rewrite app_nil_r. auto. Qed.

Lemma appends_bind {A B} (m : M A) (k : A -> M B) :
  appends P m -> (forall a, appends P (k a)) -> appends P (bind m k).
Proof.
  intros Hm Hk s. unfold bind. destruct (Hm s) as (evs & Hh & Hp).
  destruct (m s) as [[a|e] s1]; simpl in *; [|eauto].
  destruct (Hk a s1) as (evs' & Hh' & Hp'). exists (evs ++ evs').
  rewrite Hh', Hh, app_assoc. auto.
Qed.

Lemma appends_lift {A} (o : Outcome A) : appends P (lift o).
Proof. destruct o; [apply appends_ret | apply appends_raise]. Qed.

Hypothesis P_sleep : forall d, P [Sleep d].

Lemma appends_time_sleep d : appends P (time_sleep d).
Proof.
  intros s. destruct (time_sleep_run d s) as [-> | [e ->]].
  - exists [Sleep d]. auto.
  - exists []. simpl. rewrite app_nil_r. auto.
Qed.

Lemma appends_json_body resp : appends P (json_body resp).
Proof.
  intros s. rewrite json_body_parsed. exists []. simpl.
  rewrite app_nil_r. auto.
Qed.

Lemma appends_sleep_backoff attempt : appends P (_sleep_backoff attempt).
Proof. apply appends_time_sleep. Qed.

Lemma appends_handle_rate_limit resp attempt :
  appends P (_handle_rate_limit resp attempt).
Proof.
  unfold _handle_rate_limit. apply appends_bind.
  - repeat case_match; auto using appends_ret, appends_raise.
  - intros delay. apply appends_bind; [apply appends_time_sleep|].
    intros _. case_match; auto using appends_ret, appends_raise.
Qed.

Hypothesis P_post : forall url data t resp, P [Call (POST url data t) resp].

Lemma appends_session_post url data : appends P (session_post url data).
Proof. intros s. eexists [Call _ _]. split; [reflexivity | apply P_post]. Qed.

Lemma appends_post_form_loop url data attempts :
  appends P (_post_form_loop url data attempts).
Proof.
  induction attempts as [|attempt rest IH]; simpl.
  - apply appends_raise.
  - apply appends_bind; [apply appends_session_post|]. intros resp.
    repeat case_match;
      auto using appends_json_body, appends_raise, appends_bind,
                 appends_handle_rate_limit, appends_sleep_backoff.
Qed.

Lemma appends_get_access_token force : appends P (get_access_token force).
Proof.
  intros s. unfold get_access_token. case_match.
  - exists []. rewrite app_nil_r. auto.
  - apply appends_bind; [apply appends_post_form_loop|].
    intros data. apply appends_bind; [apply appends_lift|].
    intros token. case_match; [apply appends_raise|].
    intros s1. exists []. simpl. rewrite app_nil_r. auto.
Qed.

Lemma appends_headers : appends P _headers.
Proof.
  intros s. unfold _headers. apply appends_bind.
  - case_match; [|apply appends_ret].
    apply appends_bind; [apply appends_get_access_token|].
    intros _. apply appends_ret.
  - intros _ s1. exists []. rewrite app_nil_r. auto.
Qed.

Hypothesis P_get :
  forall url params hdr t resp, P [Call (GET url params hdr t) resp].

Lemma appends_session_get url params hdr : appends P (session_get url params hdr).
Proof. intros s. eexists [Call _ _]. split; [reflexivity | apply P_get]. Qed.

Lemma appends_get_loop url params attempts :
  appends P (_get_loop url params attempts).
Proof.
  induction attempts as [|attempt rest IH]; simpl.
  - apply appends_raise.
  - apply appends_bind; [apply appends_headers|]. intros hdr.
    apply appends_bind; [apply appends_session_get|]. intros resp.
    repeat case_match;
      auto using appends_json_body, appends_raise, appends_bind,
                 appends_handle_rate_limit, appends_sleep_backoff,
                 appends_get_access_token.
Qed.

End appended.

Lemma no_get_nil : no_get [].
Proof. reflexivity. Qed.

Lemma no_get_app evs evs' : no_get evs -> no_get evs' -> no_get (evs ++ evs').
Proof. unfold no_get. intros H1 H2. rewrite gets_app, H1, H2. reflexivity. Qed.

Lemma no_get_sleep d : no_get [Sleep d].
Proof. reflexivity. Qed.

Lemma no_get_post url data t resp : no_get [Call (POST url data t) resp].
Proof. reflexivity. Qed.

(** The attempt loop of [_get] sends one GET per attempt it makes. *)
Lemma get_loop_gets url params attempts s :
  exists evs,
    history (_get_loop url params attempts s).2 = history s ++ evs /\
    (length (gets evs) <= length attempts)%nat.
Proof.
  revert s. induction attempts as [|attempt rest IH]; intros s.
  - exists []. simpl. rewrite app_nil_r. auto.
  - rewrite get_loop_step.
    destruct (appends_headers no_get no_get_nil no_get_app no_get_sleep
                no_get_post s) as (e1 & H1 & G1).
    destruct (_headers s) as [[hdr|e] s1]; simpl in H1.
    { cbv zeta.
      set (req := GET url params hdr (timeout s1)).
      set (resp := _session s1 (history s1) req).
      set (s2 := record (Call req resp) s1).
      assert (Hcont : forall {A} (m : M A),
                 appends no_get m ->
                 exists evs,
                   history ((m ;;; _get_loop url params rest) s2).2
                     = history s ++ evs /\
                   (length (gets evs) <= length (attempt :: rest))%nat).
      { intros A m Hm. unfold bind. destruct (Hm s2) as (e3 & H3 & G3).
        destruct (m s2) as [[a|e] s3]; simpl in H3.
        - destruct (IH s3) as (e4 & H4 & L4).
          exists (e1 ++ [Call req resp] ++ e3 ++ e4). split.
          + rewrite H4, H3. unfold s2. simpl. rewrite H1.
            rewrite <- !app_assoc. reflexivity.
          + rewrite !gets_app, G1, G3. simpl. lia.
        - exists (e1 ++ [Call req resp] ++ e3). split.
          + simpl. rewrite H3. unfold s2. simpl. rewrite H1.
            rewrite <- !app_assoc. reflexivity.
          + rewrite !gets_app, G1, G3. simpl. lia. }
      assert (Hstop : forall o : Outcome Json,
                 exists evs,
                   history (o, s2).2 = history s ++ evs /\
                   (length (gets evs) <= length (attempt :: rest))%nat).
      { intros o. exists (e1 ++ [Call req resp]). split.
        - unfold s2. simpl. rewrite H1, <- app_assoc. reflexivity.
        - rewrite gets_app, G1. simpl. lia. }
      repeat case_match;
        first [ apply Hstop
              | rewrite json_body_parsed; apply Hstop
              | apply Hcont;
                auto using appends_handle_rate_limit, appends_sleep_backoff,
                           appends_get_access_token,
                           no_get_nil, no_get_app, no_get_sleep, no_get_post ]. }
    exists e1. split; [exact H1|]. rewrite G1. simpl. lia.
Qed.

(** X1: the retry loops are bounded.  A run of [_post_form] sends between
    one and [MAX_RETRIES] POSTs and no GET; a run of [_get] sends at most
    [MAX_RETRIES] GETs, whatever the session answers and whether the run
    returns or raises. *)
Theorem retries_are_bounded (url : string) (s : AmadeusClient) :
  (forall data, exists evs,
      history (_post_form url data s).2 = history s ++ evs /\
      (1 <= length (posts evs) <= Z.to_nat MAX_RETRIES)%nat /\
      gets evs = []) /\
  (forall params, exists evs,
      history (_get url params s).2 = history s ++ evs /\
      (length (gets evs) <= Z.to_nat MAX_RETRIES)%nat).
Proof.
  split.
  - intros data.
    destruct (_post_form url data s) as [out s'] eqn:E.
    pose proof E as E'. unfold _post_form in E'.
    apply token_spec.post_form_loop_exhausted in E' as (evs & Hh & Hle & _).
    pose proof E as E''. unfold _post_form in E''.
    apply post_form_loop_trace in E'' as (evs' & Hh' & Hg & _).
    destruct (token_spec.post_form_first_event url data s) as [tail Hf].
    rewrite E in Hf. simpl in *.
    rewrite Hh in Hh'. apply app_inv_head in Hh' as <-.
    rewrite Hh in Hf. apply app_inv_head in Hf as ->.
    eexists. split; [exact Hh|]. split; [|exact Hg].
    set (r := answer s (POST url data (timeout s))) in *.
    change (posts (Call (POST url data (timeout s)) r :: tail))
      with (r :: posts tail) in *.
    change (Z.to_nat MAX_RETRIES) with 3%nat.
    change (length (range 1 (MAX_RETRIES + 1))) with 3%nat in Hle.
    simpl in *. lia.
  - intros params. unfold _get. rewrite range_attempts.
    apply get_loop_gets.
Qed.

End trace_facts.

Module retry_more.
Import amadeus_client vocab samples.
Import client_facts retry_facts offers_spec get_spec trace_facts.

(** X2: statuses outside 429, 401, 2xx and 5xx are not retried.  With a
    token cached, a GET answered with such a status (400, 403, 404, ...)
    raises [RuntimeError] with the status and a body excerpt after that
    single request, without sleeping.  A POST answered with a status
    outside 429, 2xx and 5xx (401 included) raises [AmadeusAuthError]
    likewise. *)
Theorem client_errors_are_not_retried (url : string) (s : AmadeusClient) :
  (forall params,
      cached s ->
      let req := GET url params (bearer (_access_token s)) (timeout s) in
      let resp := answer s req in
      status_code resp <> 429 -> status_code resp <> 401 ->
      is_2xx (status_code resp) = false -> is_5xx (status_code resp) = false ->
      _get url params s =
        (Raise (RuntimeError (GetFailed url (status_code resp)
                                (substring 0 500 (text resp)))),
         record (Call req resp) s)) /\
  (forall data,
      let req := POST url data (timeout s) in
      let resp := answer s req in
      status_code resp <> 429 ->
      is_2xx (status_code resp) = false -> is_5xx (status_code resp) = false ->
      _post_form url data s =
        (Raise (AmadeusAuthError (AuthRequestFailed (status_code resp)
                                    (substring 0 500 (text resp)))),
         record (Call req resp) s)).
Proof.
  split.
  - intros params T req resp N429 N401 E2 E5.
    unfold _get. rewrite range_attempts, (get_loop_cached _ _ _ _ _ T).
    cbv zeta. fold req. fold resp.
    rewrite (proj2 (Z.eqb_neq _ _) N429), (proj2 (Z.eqb_neq _ _) N401), E2, E5.
    reflexivity.
  - intros data req resp N429 E2 E5.
    unfold _post_form. rewrite range_attempts, post_form_loop_step.
    cbv zeta. fold req. fold (answer s req). fold resp.
    rewrite (proj2 (Z.eqb_neq _ _) N429), E2, E5. reflexivity.
Qed.

Lemma client_errors_are_not_retried_witness :
  (_get "/v1/hotels" ∅ (client_with_token (fun _ _ => reply 404 None ∅))).1
    = Raise (RuntimeError (GetFailed "/v1/hotels" 404 "body")) /\
  (_post_form AMADEUS_AUTH_URL ∅ (fresh_client (fun _ _ => reply 401 None ∅))).1
    = Raise (AmadeusAuthError (AuthRequestFailed 401 "body")).
Proof.
  split.
  - destruct (client_errors_are_not_retried "/v1/hotels"
                (client_with_token (fun _ _ => reply 404 None ∅))) as [H _].
    rewrite (H ∅); [reflexivity | reflexivity | discriminate | discriminate
                    | reflexivity | reflexivity].
  - destruct (client_errors_are_not_retried AMADEUS_AUTH_URL
                (fresh_client (fun _ _ => reply 401 None ∅))) as [_ H].
    rewrite (H ∅); [reflexivity | discriminate | reflexivity | reflexivity].
Defined.

(** ** The raises after the loops *)

Lemma ends_at_ceiling_tail a a' rest :
  ends_at_ceiling (a :: a' :: rest) -> ends_at_ceiling (a' :: rest).
Proof. intros (x & Hl & Hx). exists x. rewrite last_cons_cons in Hl. auto. Qed.

Lemma ends_at_ceiling_continue (a : Z) rest :
  ends_at_ceiling (a :: rest) -> a < MAX_RETRIES -> ends_at_ceiling rest.
Proof.
  intros H Ha. destruct rest as [|a' rest].
  - destruct H as (x & Hl & Hx). simpl in Hl. injection Hl as <-. lia.
  - eauto using ends_at_ceiling_tail.
Qed.

Lemma ends_at_ceiling_range : ends_at_ceiling (range 1 (MAX_RETRIES + 1)).
Proof. exists 3. split; [reflexivity | unfold MAX_RETRIES; lia]. Qed.

Lemma post_form_loop_raises url data attempts :
  ends_at_ceiling attempts ->
  raises_from_attempts (_post_form_loop url data attempts).
Proof.
  induction attempts as [|attempt rest IH]; intros Hc s e.
  - destruct Hc as (x & Hl & _). discriminate.
  - rewrite post_form_loop_step. cbv zeta.
    set (req := POST url data (timeout s)).
    set (resp := _session s (history s) req).
    set (s1 := record (Call req resp) s).
    destruct (status_code resp =? 429).
    { unfold bind at 1. rewrite handle_rate_limit_run.
      destruct (usable_hint (retry_after resp) attempt).
      - destruct (Z.leb_spec MAX_RETRIES attempt) as [Ha|Ha].
        + simpl. intros [= <-]. exact I.
        + apply IH. eauto using ends_at_ceiling_continue.
      - simpl. intros [= <-]. destruct (plain_hint (retry_after resp)); exact I. }
    destruct (is_2xx (status_code resp)).
    { rewrite json_body_parsed. unfold parsed.
      destruct (json resp); [discriminate|]. simpl. intros [= <-]. exact I. }
    destruct (Z.ltb_spec attempt MAX_RETRIES) as [Ha|Ha].
    + destruct (is_5xx (status_code resp)); cbn [andb].
      * unfold bind at 1. rewrite (sleep_backoff_below _ _ Ha).
        apply IH. eauto using ends_at_ceiling_continue.
      * simpl. intros [= <-]. exact I.
    + rewrite andb_false_r. simpl. intros [= <-]. exact I.
Qed.

Lemma get_access_token_raises force :
  raises_from_attempts (get_access_token force).
Proof.
  intros s e. unfold get_access_token. case_match; [discriminate|].
  unfold bind.
  pose proof (post_form_loop_raises AMADEUS_AUTH_URL
                (<["grant_type":="client_credentials"]>
                 (<["client_id":=client_id s]>
                  (<["client_secret":=client_secret s]> ∅)))
                _ ends_at_ceiling_range s) as Hp.
  unfold _post_form.
  destruct (_post_form_loop _ _ _ s) as [[data|e'] s1]; simpl in *.
  - destruct (get data "access_token") as [token|e'] eqn:Eg; simpl.
    + case_match; [|discriminate]. simpl. intros [= <-]. exact I.
    + intros [= <-]. destruct data; try discriminate;
        injection Eg as <-; exact I.
  - intros [= <-]. apply Hp. reflexivity.
Qed.

Lemma headers_raises : raises_from_attempts _headers.
Proof.
  intros s e. unfold _headers. unfold bind.
  destruct (negb (truthy (_access_token s))); [|discriminate].
  pose proof (get_access_token_raises false s) as Hg.
  destruct (get_access_token false s) as [[tok|e'] s1]; simpl in *;
    [discriminate|].
  intros [= <-]. apply Hg. reflexivity.
Qed.

Lemma get_loop_raises url params attempts :
  ends_at_ceiling attempts ->
  raises_from_attempts (_get_loop url params attempts).
Proof.
  induction attempts as [|attempt rest IH]; intros Hc s e.
  - destruct Hc as (x & Hl & _). discriminate.
  - rewrite get_loop_step.
    pose proof (headers_raises s) as Hh.
    destruct (_headers s) as [[hdr|e'] s1]; simpl in Hh;
      [|simpl; intros [= <-]; apply Hh; reflexivity].
    cbv zeta.
    set (req := GET url params hdr (timeout s1)).
    set (resp := _session s1 (history s1) req).
    set (s2 := record (Call req resp) s1).
    assert (H2xx : (json_body resp s2).1 = Raise e -> from_an_attempt e).
    { rewrite json_body_parsed. unfold parsed.
      destruct (json resp); [discriminate|]. simpl. intros [= <-]. exact I. }
    destruct (status_code resp =? 429).
    { unfold bind at 1. rewrite handle_rate_limit_run.
      destruct (usable_hint (retry_after resp) attempt).
      - destruct (Z.leb_spec MAX_RETRIES attempt) as [Ha|Ha].
        + simpl. intros [= <-]. exact I.
        + apply IH. eauto using ends_at_ceiling_continue.
      - simpl. intros [= <-]. destruct (plain_hint (retry_after resp)); exact I. }
    destruct (Z.ltb_spec attempt MAX_RETRIES) as [Ha|Ha].
    + destruct (status_code resp =? 401); cbn [andb].
      { unfold bind at 1. pose proof (get_access_token_raises true s2) as Hg.
        destruct (get_access_token true s2) as [[tok|e'] s3]; simpl in Hg.
        - apply IH. eauto using ends_at_ceiling_continue.
        - simpl. intros [= <-]. apply Hg. reflexivity. }
      destruct (is_2xx (status_code resp)); [exact H2xx|].
      destruct (is_5xx (status_code resp)); cbn [andb].
      * unfold bind at 1. rewrite (sleep_backoff_below _ _ Ha).
        apply IH. eauto using ends_at_ceiling_continue.
      * simpl. intros [= <-]. exact I.
    + rewrite !andb_false_r.
      destruct (is_2xx (status_code resp)); [exact H2xx|].
      simpl. intros [= <-]. exact I.
Qed.

(** X3: the [raise] statements after the two attempt loops are never
    reached.  No run of [_post_form], [get_access_token] or [_get] ends
    with "Auth failed after retries." or "GET ... failed after retries.":
    the last attempt always returns or raises by itself. *)
Theorem raises_after_the_loops_are_dead (url : string) (s : AmadeusClient)
    (e : Exn) :
  (forall data, (_post_form url data s).1 = Raise e -> from_an_attempt e) /\
  (forall force, (get_access_token force s).1 = Raise e -> from_an_attempt e) /\
  (forall params, (_get url params s).1 = Raise e -> from_an_attempt e).
Proof.
  split; [|split].
  - intros data. apply post_form_loop_raises, ends_at_ceiling_range.
  - intros force. apply get_access_token_raises.
  - intros params. apply get_loop_raises, ends_at_ceiling_range.
Qed.

Lemma raises_after_the_loops_are_dead_witness :
  from_an_attempt AmadeusRateLimitError.
Proof.
  destruct (raises_after_the_loops_are_dead AMADEUS_AUTH_URL throttled_client
              AmadeusRateLimitError) as [H _].
  apply (H (credentials_form throttled_client)). reflexivity.
Defined.

End retry_more.

Module token_more.
Import amadeus_client vocab samples.
Import client_facts retry_facts offers_spec get_spec trace_facts.

(** ** The cached token is never lost *)

Lemma keeps_token_cached {A} (m : M A) : keeps_token m -> keeps_cached m.
Proof. intros H s. unfold cached. rewrite H. auto. Qed.

Lemma keeps_cached_ret {A} (a : A) : keeps_cached (ret a).
Proof. intros s H. exact H. Qed.

Lemma keeps_cached_raise {A} e : keeps_cached (@raise A e).
Proof. intros s H. exact H. Qed.

Lemma keeps_cached_bind {A B} (m : M A) (k : A -> M B) :
  keeps_cached m -> (forall a, keeps_cached (k a)) -> keeps_cached (bind m k).
Proof.
  intros Hm Hk s H. unfold bind. specialize (Hm s H).
  destruct (m s) as [[a|e] s1]; simpl in *; [|assumption].
  apply Hk. assumption.
Qed.

Lemma keeps_cached_lift {A} (o : Outcome A) : keeps_cached (lift o).
Proof. destruct o; [apply keeps_cached_ret | apply keeps_cached_raise]. Qed.

(** A failed token exchange leaves the token as it was. *)
Lemma get_access_token_failed force s e s' :
  get_access_token force s = (Raise e, s') ->
  _access_token s' = _access_token s.
Proof.
  unfold get_access_token. case_match; [discriminate|].
  unfold bind.
  pose proof (keeps_token_post_form_loop AMADEUS_AUTH_URL
                (<["grant_type":="client_credentials"]>
                 (<["client_id":=client_id s]>
                  (<["client_secret":=client_secret s]> ∅)))
                (range 1 (MAX_RETRIES + 1)) s) as Hk.
  unfold _post_form.
  destruct (_post_form_loop _ _ _ s) as [[data|e'] s1]; simpl in Hk.
  - destruct (get data "access_token") as [token|e']; simpl.
    + case_match; [|discriminate]. intros [= <- <-]. exact Hk.
    + intros [= <- <-]. exact Hk.
  - intros [= <- <-]. exact Hk.
Qed.

Lemma keeps_cached_get_access_token force :
  keeps_cached (get_access_token force).
Proof.
  intros s H. destruct (get_access_token force s) as [[tok|e] s'] eqn:E.
  - apply get_access_token_ok in E as [E T]. unfold cached. simpl.
    rewrite E. exact T.
  - apply get_access_token_failed in E. unfold cached. simpl.
    rewrite E. exact H.
Qed.

Lemma keeps_cached_headers : keeps_cached _headers.
Proof.
  intros s H. rewrite (headers_cached s H). exact H.
Qed.

Lemma keeps_cached_get_loop url params attempts :
  keeps_cached (_get_loop url params attempts).
Proof.
  induction attempts as [|attempt rest IH]; simpl.
  - apply keeps_cached_raise.
  - apply keeps_cached_bind; [apply keeps_cached_headers|]. intros hdr.
    apply keeps_cached_bind; [intros s H; exact H|]. intros resp.
    repeat case_match;
      auto using keeps_cached_raise, keeps_cached_bind,
                 keeps_cached_get_access_token, keeps_token_cached,
                 keeps_token_json_body,
                 keeps_token_handle_rate_limit, keeps_token_sleep_backoff.
Qed.

Lemma keeps_cached_get url params : keeps_cached (_get url params).
Proof. apply keeps_cached_get_loop. Qed.

Lemma keeps_cached_offers_loop chunks check_in nights adults rooms currency acc :
  keeps_cached (offers_loop chunks check_in nights adults rooms currency acc).
Proof.
  revert acc. induction chunks as [|chunk rest IH]; intros acc; simpl.
  - apply keeps_cached_ret.
  - apply keeps_cached_bind; [intros s H; exact H|]. intros url.
    apply keeps_cached_bind; [apply keeps_cached_get|]. intros j. apply IH.
Qed.

(** X4: a cached token is never lost.  Whatever the session answers and
    whether the call returns or raises, a client that holds a token before
    [get_access_token], [_get] or [get_hotel_offers] holds one after it;
    and a [get_access_token] that raises leaves the very token it found. *)
Theorem cached_token_is_never_lost (s : AmadeusClient) :
  cached s ->
  (forall force, cached (get_access_token force s).2) /\
  (forall force e s',
      get_access_token force s = (Raise e, s') ->
      _access_token s' = _access_token s) /\
  (forall url params, cached (_get url params s).2) /\
  (forall ids check_in nights adults rooms currency,
      cached (get_hotel_offers ids check_in nights adults rooms currency s).2).
Proof.
  intros H. split; [|split; [|split]].
  - intros force. apply keeps_cached_get_access_token, H.
  - intros force e s'. apply get_access_token_failed.
  - intros url params. apply keeps_cached_get, H.
  - intros ids check_in nights adults rooms currency.
    unfold get_hotel_offers. case_match; [exact H|].
    case_match; [|exact H].
    apply keeps_cached_bind;
      [apply keeps_cached_offers_loop | intros bs; apply keeps_cached_ret
       | exact H].
Qed.

Lemma cached_token_is_never_lost_witness :
  _access_token (get_access_token true tokenless_client).2 = JStr "tok-0" /\
  cached (_get "/v1/hotels" ∅ failing_client).2.
Proof.
  split.
  - destruct (cached_token_is_never_lost tokenless_client eq_refl)
      as (_ & H & _).
    apply (H true (AmadeusAuthError (MissingAccessToken (JObj ∅)))). reflexivity.
  - destruct (cached_token_is_never_lost failing_client eq_refl)
      as (_ & _ & H & _). apply H.
Defined.

(** X5: a token obtained once is reused.  After a [get_access_token] that
    returned a token, [get_access_token()] returns that token and
    [_headers()] builds the Bearer header from it, both without a request:
    the client stays as it is. *)
Theorem granted_token_is_reused (force : bool) (s s1 : AmadeusClient)
    (token : Json) :
  get_access_token force s = (Ok token, s1) ->
  get_access_token false s1 = (Ok token, s1) /\
  _headers s1 = (Ok (bearer token), s1).
Proof.
  intros H. apply get_access_token_ok in H as [<- T]. split.
  - apply get_access_token_cached, T.
  - apply headers_cached, T.
Qed.

Lemma granted_token_is_reused_witness :
  _headers (get_access_token false (fresh_client healthy_session)).2
    = (Ok (bearer (JStr "tok-1")),
       (get_access_token false (fresh_client healthy_session)).2).
Proof.
  apply (granted_token_is_reused false (fresh_client healthy_session)
           (get_access_token false (fresh_client healthy_session)).2
           (JStr "tok-1")).
  reflexivity.
Defined.

End token_more.

Module sleep_more.
Import amadeus_client vocab samples.
Import client_facts retry_facts offers_spec get_spec trace_facts.

Lemma sleeps_app evs evs' : sleeps (evs ++ evs') = sleeps evs ++ sleeps evs'.
Proof. apply omap_app. Qed.

Lemma total_app l l' : total (l ++ l') = total l + total l'.
Proof. unfold total. induction l as [|x l IH]; simpl; lia. Qed.

Lemma backoff_below (a : Z) : 1 <= a -> 0 <= 2 ^ (a - 1) <= 2 ^ a.
Proof.
  intros Ha. split; [apply Z.pow_nonneg; lia|].
  apply Z.pow_le_mono_r; lia.
Qed.

Lemma fallback_delay (a : Z) : 1 <= a -> Z.max 1 (2 ^ a) = 2 ^ a.
Proof.
  intros Ha. apply Z.max_r.
  pose proof (Z.pow_le_mono_r 2 0 a ltac:(lia) ltac:(lia)). simpl in *. lia.
Qed.

Lemma total_cons x l : total (x :: l) = x + total l.
Proof. reflexivity. Qed.

Lemma total_powers_nonneg (l : list Z) :
  Forall (fun a => 1 <= a) l -> 0 <= total ((fun a => 2 ^ a) <$> l).
Proof.
  induction 1 as [|a l Ha Hl IH]; [reflexivity|].
  rewrite fmap_cons, total_cons.
  pose proof (Z.pow_nonneg 2 a ltac:(lia)). lia.
Qed.

(** Without announcements each attempt sleeps at most [2 ^ attempt]. *)
Lemma post_form_loop_sleeps url data attempts s :
  never_hints (_session s) ->
  Forall (fun a => 1 <= a) attempts ->
  exists evs,
    history (_post_form_loop url data attempts s).2 = history s ++ evs /\
    0 <= total (sleeps evs) <= total ((fun a => 2 ^ a) <$> attempts).
Proof.
  intros Hn Ha. revert s Hn.
  induction Ha as [|attempt rest Hattempt Hrest IH]; intros s Hn.
  - exists []. simpl. rewrite app_nil_r. split; [reflexivity | simpl; lia].
  - rewrite post_form_loop_step. cbv zeta.
    set (req := POST url data (timeout s)).
    set (resp := _session s (history s) req).
    set (s1 := record (Call req resp) s).
    pose proof (backoff_below attempt Hattempt) as Hb.
    pose proof (total_powers_nonneg rest Hrest) as Hrest'.
    assert (Hstop : forall (o : Outcome Json) d,
               0 <= d <= 2 ^ attempt ->
               exists evs,
                 history (o, record (Sleep d) s1).2 = history s ++ evs /\
                 0 <= total (sleeps evs)
                   <= total ((fun a => 2 ^ a) <$> attempt :: rest)).
    { intros o d Hd. exists [Call req resp; Sleep d]. split.
      - unfold s1. simpl. rewrite <- app_assoc. reflexivity.
      - rewrite fmap_cons, total_cons.
        change (total (sleeps [Call req resp; Sleep d])) with (d + 0). lia. }
    assert (Hquit : forall (o : Outcome Json),
               exists evs,
                 history (o, s1).2 = history s ++ evs /\
                 0 <= total (sleeps evs)
                   <= total ((fun a => 2 ^ a) <$> attempt :: rest)).
    { intros o. exists [Call req resp]. split; [reflexivity|].
      rewrite fmap_cons, total_cons.
      change (total (sleeps [Call req resp])) with 0. lia. }
    assert (Hcont : forall d,
               0 <= d <= 2 ^ attempt ->
               exists evs,
                 history (_post_form_loop url data rest (record (Sleep d) s1)).2
                   = history s ++ evs /\
                 0 <= total (sleeps evs)
                   <= total ((fun a => 2 ^ a) <$> attempt :: rest)).
    { intros d Hd. destruct (IH (record (Sleep d) s1) Hn) as (evs & Hh & Ht).
      exists ([Call req resp; Sleep d] ++ evs). split.
      - rewrite Hh. unfold s1. simpl. rewrite <- !app_assoc. reflexivity.
      - rewrite sleeps_app, total_app.
        change (total (sleeps [Call req resp; Sleep d])) with (d + 0).
        rewrite fmap_cons, total_cons. lia. }
    destruct (status_code resp =? 429).
    { unfold bind at 1. rewrite handle_rate_limit_run.
      assert (Hhint : retry_after resp = None) by apply Hn.
      rewrite Hhint. cbn [policy_delay plain_hint].
      rewrite fallback_delay by exact Hattempt.
      destruct (usable_hint None attempt); [|apply Hquit].
      destruct (MAX_RETRIES <=? attempt); [apply Hstop | apply Hcont]; lia. }
    destruct (is_2xx (status_code resp));
      [rewrite json_body_parsed; apply Hquit|].
    destruct (Z.ltb_spec attempt MAX_RETRIES) as [Ha|Ha].
    + destruct (is_5xx (status_code resp)); cbn [andb]; [|apply Hquit].
      unfold bind at 1. rewrite (sleep_backoff_below _ _ Ha).
      exact (Hcont (2 ^ (attempt - 1)) Hb).
    + rewrite andb_false_r. apply Hquit.
Qed.

(** X6: the sleep budget of a token exchange.  When the session never
    announces a Retry-After, a run of [_post_form] sleeps at most
    2 + 4 + 8 = 14 seconds in total, whatever statuses it meets. *)
Theorem post_form_sleeps_at_most_14 (url : string) (data : gmap string string)
    (s : AmadeusClient) :
  never_hints (_session s) ->
  exists evs,
    history (_post_form url data s).2 = history s ++ evs /\
    0 <= total (sleeps evs) <= 14.
Proof.
  intros Hn. unfold _post_form. rewrite range_attempts.
  destruct (post_form_loop_sleeps url data [1; 2; 3] s Hn) as (evs & Hh & Ht).
  - repeat constructor; lia.
  - exists evs. split; [exact Hh|]. exact Ht.
Qed.

Lemma post_form_sleeps_at_most_14_witness :
  sleeps (history (_post_form AMADEUS_AUTH_URL ∅ throttled_client).2)
    = [2; 4; 8] /\
  exists evs,
    history (_post_form AMADEUS_AUTH_URL ∅ throttled_client).2 = [] ++ evs /\
    0 <= total (sleeps evs) <= 14.
Proof.
  split; [reflexivity|].
  apply (post_form_sleeps_at_most_14 AMADEUS_AUTH_URL ∅ throttled_client).
  intros past req. reflexivity.
Defined.

(** ** What counts as an announcement *)





End sleep_more.

Module offers_more.
Import amadeus_client vocab samples.
Import client_facts retry_facts offers_spec get_spec trace_facts.

(** A [_get] that raises got no 2xx answer with a JSON body. *)
Lemma get_loop_raise url params attempts s e s' :
  _get_loop url params attempts s = (Raise e, s') -> quiet s s'.
Proof.
  revert s. induction attempts as [|attempt rest IH]; intros s H.
  - injection H as _ <-. apply quiet_refl.
  - rewrite get_loop_step in H.
    pose proof (preserves_headers s) as Q1.
    destruct (_headers s) as [[hdr|e'] s1]; simpl in Q1;
      [|injection H as _ <-; exact Q1].
    cbv zeta in H.
    set (req := GET url params hdr (timeout s1)) in *.
    set (resp := _session s1 (history s1) req) in *.
    set (s2 := record (Call req resp) s1) in *.
    pose proof (yields_record s1 (Call req resp)) as Q2. fold s2 in Q2.
    unfold ok_gets in Q2. cbn [omap list_omap answered req] in Q2.
    assert (Hcont : forall {A} (m : M A),
               preserves m -> is_2xx (status_code resp) = false ->
               bind m (fun _ => _get_loop url params rest) s2 = (Raise e, s') ->
               quiet s s').
    { intros A m Hm H2 Hb. unfold bind in Hb. pose proof (Hm s2) as Q3.
      rewrite H2 in Q2.
      destruct (m s2) as [[a|e'] s3]; simpl in Q3.
      - apply IH in Hb. eauto using quiet_trans.
      - injection Hb as _ <-. eauto using quiet_trans. }
    destruct (Z.eqb_spec (status_code resp) 429) as [E429|N429].
    { eapply Hcont; [apply preserves_handle_rate_limit | | exact H].
      rewrite E429. reflexivity. }
    destruct ((status_code resp =? 401) && (attempt <? MAX_RETRIES)) eqn:E401.
    { eapply Hcont; [apply preserves_get_access_token | | exact H].
      apply andb_true_iff in E401 as [E _]. apply Z.eqb_eq in E.
      rewrite E. reflexivity. }
    destruct (is_2xx (status_code resp)) eqn:E2.
    { rewrite json_body_parsed in H. unfold parsed in H.
      destruct (json resp) as [body|] eqn:Ej; [discriminate|].
      injection H as _ <-. simpl in Q2. eauto using quiet_trans. }
    destruct (is_5xx (status_code resp) && (attempt <? MAX_RETRIES)) eqn:E5.
    { eapply Hcont; [apply preserves_sleep_backoff | reflexivity | exact H]. }
    injection H as _ <-. eauto using quiet_trans.
Qed.

(** ** What is asked *)

Lemma asks_app evs evs' : asks (evs ++ evs') = asks evs ++ asks evs'.
Proof. apply omap_app. Qed.

Lemma no_get_asks evs : no_get evs -> asks evs = [].
Proof.
  unfold no_get. induction evs as [|[[]|] evs IH]; simpl; intros H;
    try discriminate; auto.
Qed.

(** Every GET of an attempt loop carries the parameters of the call. *)
Lemma get_loop_asks url params attempts s :
  exists evs,
    history (_get_loop url params attempts s).2 = history s ++ evs /\
    Forall (fun p => p = params) (asks evs).
Proof.
  revert s. induction attempts as [|attempt rest IH]; intros s.
  - exists []. simpl. rewrite app_nil_r. auto.
  - rewrite get_loop_step.
    destruct (appends_headers no_get no_get_nil no_get_app no_get_sleep
                no_get_post s) as (e1 & H1 & G1%no_get_asks).
    destruct (_headers s) as [[hdr|e] s1]; simpl in H1.
    { cbv zeta.
      set (req := GET url params hdr (timeout s1)).
      set (resp := _session s1 (history s1) req).
      set (s2 := record (Call req resp) s1).
      assert (Hcont : forall {A} (m : M A),
                 appends no_get m ->
                 exists evs,
                   history ((m ;;; _get_loop url params rest) s2).2
                     = history s ++ evs /\
                   Forall (fun p => p = params) (asks evs)).
      { intros A m Hm. unfold bind.
        destruct (Hm s2) as (e3 & H3 & G3%no_get_asks).
        destruct (m s2) as [[a|e] s3]; simpl in H3.
        - destruct (IH s3) as (e4 & H4 & L4).
          exists (e1 ++ [Call req resp] ++ e3 ++ e4). split.
          + rewrite H4, H3. unfold s2. simpl. rewrite H1.
            rewrite <- !app_assoc. reflexivity.
          + rewrite !asks_app, G1, G3. simpl. constructor; auto.
        - exists (e1 ++ [Call req resp] ++ e3). split.
          + simpl. rewrite H3. unfold s2. simpl. rewrite H1.
            rewrite <- !app_assoc. reflexivity.
          + rewrite !asks_app, G1, G3. simpl. constructor; auto. }
      assert (Hstop : forall o : Outcome Json,
                 exists evs,
                   history (o, s2).2 = history s ++ evs /\
                   Forall (fun p => p = params) (asks evs)).
      { intros o. exists (e1 ++ [Call req resp]). split.
        - unfold s2. simpl. rewrite H1, <- app_assoc. reflexivity.
        - rewrite asks_app, G1. simpl. constructor; auto. }
      repeat case_match;
        first [ apply Hstop
              | rewrite json_body_parsed; apply Hstop
              | apply Hcont;
                auto using appends_handle_rate_limit, appends_sleep_backoff,
                           appends_get_access_token,
                           no_get_nil, no_get_app, no_get_sleep, no_get_post ]. }
    exists e1. split; [exact H1|]. rewrite G1. constructor.
Qed.

Lemma offers_loop_raise chunks check_in nights adults rooms currency acc s e s' :
  offers_loop chunks check_in nights adults rooms currency acc s = (Raise e, s') ->
  exists resps evs,
    (length resps < length chunks)%nat /\
    history s' = history s ++ evs /\
    ok_gets evs =
      zip ((fun c => offers_params c check_in nights adults rooms currency)
             <$> chunks) resps /\
    Forall (fun p => p ∈ (fun c => offers_params c check_in nights adults
                                     rooms currency)
                           <$> take (S (length resps)) chunks)
           (asks evs).
Proof.
  revert acc s. induction chunks as [|chunk rest IH]; intros acc s H; simpl in H.
  - discriminate.
  - unfold bind in H at 1 2.
    match type of H with context [_get ?u ?p s] =>
      destruct (get_loop_asks u p (range 1 (MAX_RETRIES + 1)) s)
        as (e1 & H1 & A1);
      fold (_get u p) in H1
    end.
    destruct (_get _ _ s) as [[j|e'] s1] eqn:Eg; simpl in H1.
    + apply get_ok in Eg as [_ (e1' & H1' & G1)].
      rewrite H1 in H1'. apply app_inv_head in H1' as <-.
      apply IH in H as (resps & e2 & Hlen & H2 & G2 & A2).
      exists (j :: resps), (e1 ++ e2). split; [simpl; lia|].
      split; [rewrite H2, H1, app_assoc; reflexivity|]. split.
      * rewrite ok_gets_app, G1, G2. reflexivity.
      * rewrite asks_app. apply Forall_app. split.
        -- eapply Forall_impl; [exact A1|]. intros p ->. simpl. left.
        -- eapply Forall_impl; [exact A2|]. intros p Hp. simpl. right. exact Hp.
    + injection H as _ <-. apply get_loop_raise in Eg as [_ (e1' & H1' & G1)].
      rewrite H1 in H1'. apply app_inv_head in H1' as <-.
      exists [], e1. split; [simpl; lia|]. split; [exact H1|].
      split; [exact G1|].
      eapply Forall_impl; [exact A1|]. intros p ->. simpl. left.
Qed.

(** X8: a failing chunk fails the whole fetch, at once.  When
    [get_hotel_offers] raises, the GETs that gave a body (answered 2xx with
    JSON) during the call are, in order, those of a strict prefix of the
    chunks: every chunk before the failing one was fetched.  Every GET sent
    during the call asks for one of these chunks or for the failing one, so
    nothing is asked for the chunks after it; and no batch is handed
    back. *)
Theorem offers_stop_at_the_failing_chunk (hotel_ids : list string)
    (check_in : string) (nights adults rooms : Z) (currency : option string)
    (s s' : AmadeusClient) (e : Exn) :
  get_hotel_offers hotel_ids check_in nights adults rooms currency s
    = (Raise e, s') ->
  exists chunks resps evs,
    _chunks hotel_ids 20 = Ok chunks /\
    (length resps < length chunks)%nat /\
    history s' = history s ++ evs /\
    ok_gets evs =
      zip ((fun c => offers_params c check_in nights adults rooms currency)
             <$> take (length resps) chunks) resps /\
    Forall (fun p => p ∈ (fun c => offers_params c check_in nights adults
                                     rooms currency)
                           <$> take (S (length resps)) chunks)
           (asks evs).
Proof.
  intros H. unfold get_hotel_offers in H.
  destruct (bool_decide (hotel_ids = [])); [discriminate|].
  destruct (chunks_spec._chunks_partition hotel_ids 20 ltac:(lia))
    as (chunks & Hc & _).
  rewrite Hc in H. unfold bind in H.
  destruct (offers_loop _ _ _ _ _ _ _ s) as [[bs|e'] s1] eqn:El; [discriminate|].
  injection H as _ <-.
  apply offers_loop_raise in El as (resps & evs & Hlen & Hh & Hg & Ha).
  exists chunks, resps, evs. repeat (split; [assumption|]).
  split; [|exact Ha].
  rewrite Hg. clear -Hlen. revert resps Hlen.
  induction chunks as [|c cs IH]; intros resps Hlen; [simpl in Hlen; lia|].
  destruct resps as [|r rs]; [reflexivity|].
  simpl. f_equal. destruct cs as [|c' cs'].
  - simpl in Hlen. lia.
  - apply IH. simpl in *. lia.
Qed.

Lemma offers_stop_at_the_failing_chunk_witness :
  exists chunks (resps : list Json),
    _chunks (replicate 21 "HNNCE001") 20 = Ok chunks /\
    (length resps < length chunks)%nat.
Proof.
  destruct (offers_stop_at_the_failing_chunk (replicate 21 "HNNCE001")
              "2025-09-20" 1 1 1 None failing_client
              (get_hotel_offers (replicate 21 "HNNCE001") "2025-09-20" 1 1 1
                                None failing_client).2
              (RuntimeError
                 (GetFailed (AMADEUS_BASE_URL +:+ "/v3/shopping/hotel-offers")
                            500 "body")))
    as (chunks & resps & evs & Hc & Hl & _); [reflexivity|].
  exists chunks, resps. split; assumption.
Defined.

(** A chunk answered 200 with a body that is not JSON fails the fetch as
    well: [json()] raises and the answer gives no body. *)
Example offers_garbled_chunk :
  (get_hotel_offers ["HNNCE001"] "2025-09-20" 1 1 1 None garbled_client).1
    = Raise JSONDecodeError /\
  ok_gets (history
     (get_hotel_offers ["HNNCE001"] "2025-09-20" 1 1 1 None garbled_client).2)
    = [] /\
  length (gets (history
     (get_hotel_offers ["HNNCE001"] "2025-09-20" 1 1 1 None garbled_client).2))
    = 1%nat.
Proof. repeat split. Qed.

Lemma offers_loop_gets chunks check_in nights adults rooms currency acc s :
  exists evs,
    history (offers_loop chunks check_in nights adults rooms currency acc s).2
      = history s ++ evs /\
    (length (gets evs) <= Z.to_nat MAX_RETRIES * length chunks)%nat.
Proof.
  revert acc s. induction chunks as [|chunk rest IH]; intros acc s; simpl.
  - exists []. rewrite app_nil_r. split; [reflexivity | simpl; lia].
  - unfold bind at 1 2.
    match goal with |- context [_get ?u ?p s] =>
      destruct (get_loop_gets u p (range 1 (MAX_RETRIES + 1)) s)
        as (e1 & H1 & L1);
      fold (_get u p) in H1; destruct (_get u p s) as [[j|e] s1]
    end; simpl in H1.
    + destruct (IH (acc ++ [batch chunk j]) s1) as (e2 & H2 & L2).
      exists (e1 ++ e2). split; [rewrite H2, H1, app_assoc; reflexivity|].
      rewrite gets_app, length_app.
      change (length (range 1 (MAX_RETRIES + 1))) with 3%nat in L1.
      change (Z.to_nat MAX_RETRIES) with 3%nat in *. lia.
    + exists e1. split; [exact H1|].
      change (length (range 1 (MAX_RETRIES + 1))) with 3%nat in L1.
      change (Z.to_nat MAX_RETRIES) with 3%nat. lia.
Qed.

(** X9: the request budget of a fetch.  A call of [get_hotel_offers] on L
    ids sends at most [MAX_RETRIES] GETs per chunk, that is at most
    3 * ceil(L/20) GETs, whether it returns or raises. *)
Theorem offers_request_budget (hotel_ids : list string) (check_in : string)
    (nights adults rooms : Z) (currency : option string) (s : AmadeusClient) :
  exists evs,
    history (get_hotel_offers hotel_ids check_in nights adults rooms currency s).2
      = history s ++ evs /\
    (length (gets evs) <= 3 * ((length hotel_ids + 19) / 20))%nat.
Proof.
  unfold get_hotel_offers. case_bool_decide as Hnil.
  - exists []. simpl. rewrite app_nil_r. split; [reflexivity | lia].
  - destruct (chunks_spec._chunks_partition hotel_ids 20 ltac:(lia))
      as (chunks & Hc & _ & Hlen & _).
    rewrite Hc. unfold bind.
    destruct (offers_loop_gets chunks check_in nights adults rooms currency [] s)
      as (evs & Hh & Hl).
    exists evs. split.
    + destruct (offers_loop _ _ _ _ _ _ _ s) as [[bs|e] s1]; exact Hh.
    + replace (length hotel_ids + 20 - 1)%nat with (length hotel_ids + 19)%nat
        in Hlen by lia.
      rewrite <- Hlen. exact Hl.
Qed.

End offers_more.

Module chunks_more.
Import amadeus_client vocab samples chunks_spec.

Lemma windows_lookup {A} (l : list A) size c k :
  (k < c)%nat -> windows l size c !! k = Some (take size (drop (k * size) l)).
Proof.
  intros Hk. unfold windows. rewrite !list_lookup_fmap, lookup_seq_lt by lia.
  simpl. rewrite slice_window. reflexivity.
Qed.

(** X10: where an id ends up.  For a positive chunk size the id at index
    [i] is the item [i mod size] of chunk [i / size], every chunk but the
    last holds exactly [size] ids, and a zero size raises [ValueError]. *)
Theorem chunks_index (ids : list string) (size : nat) :
  ((0 < size)%nat ->
   exists chunks,
     _chunks ids size = Ok chunks /\
     (forall i : nat,
         ids !! i = chunks !! (i / size)%nat ≫= (fun c => c !! (i mod size)%nat)) /\
     (forall (k : nat) c,
         chunks !! k = Some c -> (S k < length chunks)%nat ->
         length c = size)) /\
  _chunks ids 0 = Raise ValueError.
Proof.
  split; [|reflexivity]. intros Hs.
  exists (windows ids size ((length ids + size - 1) / size)).
  destruct (ceil_div_bounds (length ids) size Hs) as [Hlo Hhi].
  set (c := ((length ids + size - 1) / size)%nat) in *.
  split; [apply _chunks_windows, Hs|]. split.
  - intros i.
    pose proof (Nat.div_mod_eq i size) as Ei.
    pose proof (Nat.mod_upper_bound i size ltac:(lia)) as Ui.
    destruct (Nat.lt_ge_cases (i / size) c) as [Hk|Hk].
    + rewrite windows_lookup by exact Hk. simpl.
      rewrite lookup_take_lt by exact Ui. rewrite lookup_drop.
      f_equal. lia.
    + rewrite (lookup_ge_None_2 (windows ids size c))
        by (rewrite length_windows; exact Hk).
      simpl. apply lookup_ge_None_2. nia.
  - intros k ch Hk Hlast. rewrite length_windows in Hlast.
    rewrite windows_lookup in Hk by lia. injection Hk as <-.
    rewrite length_take, length_drop. nia.
Qed.

Lemma chunks_index_witness :
  exists chunks,
    _chunks (replicate 45 "H") 20 = Ok chunks /\
    replicate 45 "H" !! 41%nat = chunks !! 2%nat ≫= (fun c => c !! 1%nat).
Proof.
  destruct (chunks_index (replicate 45 "H") 20) as [H _].
  destruct H as (chunks & Hc & Hi & _); [lia|].
  exists chunks. split; [exact Hc | exact (Hi 41%nat)].
Defined.

End chunks_more.

Module init_spec.
Import amadeus_client vocab samples.
Import client_facts retry_facts offers_spec get_spec trace_facts.

Lemma rstrip_slash_tail s : exists k, s = rstrip_slash s +:+ slashes k.
Proof.
  induction s as [|c rest [k IH]]; [exists 0%nat; reflexivity|]. simpl.
  destruct (rstrip_slash rest) as [|c' kept] eqn:E; rewrite ?E in IH.
  - case_bool_decide as Hc.
    + exists (S k). rewrite IH, Hc. reflexivity.
    + exists k. rewrite IH. reflexivity.
  - exists k. rewrite IH. reflexivity.
Qed.

Lemma append_nil_l (x : string) : "" +:+ x = x.
Proof. reflexivity. Qed.

Lemma append_cons c (s x : string) : String c s +:+ x = String c (s +:+ x).
Proof. reflexivity. Qed.

Lemma rstrip_slash_end s t : rstrip_slash s <> t +:+ "/".
Proof.
  revert t. induction s as [|c rest IH]; intros t; simpl.
  - destruct t; rewrite ?append_nil_l, ?append_cons; discriminate.
  - destruct (rstrip_slash rest) as [|c' kept] eqn:E.
    + case_bool_decide as Hc;
        [destruct t; rewrite ?append_nil_l, ?append_cons; discriminate|].
      destruct t as [|c1 [|c2 t]];
        rewrite ?append_nil_l, ?append_cons, ?append_nil_l;
        try discriminate; congruence.
    + destruct t as [|c1 t]; rewrite ?append_nil_l, ?append_cons;
        [discriminate|].
      intros [= _ H]. exact (IH t H).
Qed.

Lemma str_missing_false x : str_missing x = false -> exists v, x = Some v /\ v <> "".
Proof.
  destruct x as [v|]; simpl; [|discriminate].
  intros H. apply bool_decide_eq_false in H. eauto.
Qed.

(** X11: what the constructor establishes.  It raises [ValueError] exactly
    when the id or the secret is missing (or empty) both as argument and in
    the environment.  Otherwise the client holds non-empty credentials, the
    argument winning over the environment, a base URL that is the given one
    without its trailing slashes, the given session (or a new one), no
    token and no history. *)
Theorem init_contract (getenv : string -> option string) (new_session : Session)
    (id secret : option string) (url : string) (t : Z * Z)
    (session : option Session) :
  match __init__ getenv new_session id secret url t session with
  | Ok c =>
      client_id c <> "" /\ client_secret c <> "" /\
      (str_missing id = false -> id = Some (client_id c)) /\
      (str_missing id = true -> getenv "AMADEUS_CLIENT_ID" = Some (client_id c)) /\
      (str_missing secret = false -> secret = Some (client_secret c)) /\
      (str_missing secret = true ->
       getenv "AMADEUS_CLIENT_SECRET" = Some (client_secret c)) /\
      (exists k, url = base_url c +:+ slashes k) /\
      (forall tail, base_url c <> tail +:+ "/") /\
      timeout c = t /\ _session c = default new_session session /\
      _access_token c = JNull /\ history c = []
  | Raise e =>
      e = ValueError /\
      ((str_missing id = true /\
        str_missing (getenv "AMADEUS_CLIENT_ID") = true) \/
       (str_missing secret = true /\
        str_missing (getenv "AMADEUS_CLIENT_SECRET") = true))
  end.
Proof.
  unfold __init__, str_or.
  destruct (str_missing id) eqn:Hi, (str_missing secret) eqn:Hs;
    repeat match goal with
           | |- context [str_missing ?x || _] =>
               destruct (str_missing x) eqn:?; cbn [orb]
           | |- context [if str_missing ?x then _ else _] =>
               destruct (str_missing x) eqn:?
           end;
    try (split; [reflexivity | tauto]);
    repeat match goal with
           | H : str_missing _ = false |- _ =>
               apply str_missing_false in H as (? & -> & ?)
           end;
    simpl; repeat split;
      try assumption; try discriminate; try reflexivity;
      auto using rstrip_slash_tail, rstrip_slash_end.
Qed.

Lemma init_contract_witness :
  exists c,
    __init__ sample_env healthy_session (Some "arg-id") None
             "https://test.api.amadeus.com//" DEFAULT_TIMEOUT None = Ok c /\
    client_id c = "arg-id" /\ client_secret c = "env-secret" /\
    base_url c = AMADEUS_BASE_URL.
Proof.
  pose proof (init_contract sample_env healthy_session (Some "arg-id") None
                "https://test.api.amadeus.com//" DEFAULT_TIMEOUT None) as H.
  destruct (__init__ sample_env healthy_session (Some "arg-id") None
              "https://test.api.amadeus.com//" DEFAULT_TIMEOUT None)
    as [c|e] eqn:E; [|discriminate].
  destruct H as (_ & _ & Hid & _ & _ & Hsec & _).
  exists c. split; [reflexivity|].
  specialize (Hid eq_refl). specialize (Hsec eq_refl).
  injection Hid as Hid. injection Hsec as Hsec.
  split; [auto|]. split; [auto|].
  injection E as <-. reflexivity.
Defined.

End init_spec.

Module lists_spec.
Import amadeus_client vocab samples.
Import client_facts retry_facts offers_spec get_spec trace_facts.

Lemma anything_app (evs evs' : list Event) : True -> True -> True.
Proof. auto. Qed.

(** Every method only ever appends to the history. *)
Lemma get_loop_grows url params attempts s :
  exists evs, history (_get_loop url params attempts s).2 = history s ++ evs.
Proof.
  destruct (appends_get_loop (fun _ => True) I anything_app
              (fun _ => I) (fun _ _ _ _ => I) (fun _ _ _ _ _ => I)
              url params attempts s) as (evs & H & _).
  eauto.
Qed.

Lemma get_access_token_opens s :
  truthy (_access_token s) = false ->
  exists evs,
    history (get_access_token false s).2 =
      history s ++
        Call (POST AMADEUS_AUTH_URL (credentials_form s) (timeout s))
             (answer s (POST AMADEUS_AUTH_URL (credentials_form s) (timeout s)))
        :: evs /\
    gets evs = [].
Proof.
  intros T. rewrite get_access_token_exchange by auto.
  destruct (token_spec.post_form_first_event AMADEUS_AUTH_URL
              (credentials_form s) s) as [evs Hf].
  destruct (_post_form _ _ s) as [out s1] eqn:Ep.
  pose proof Ep as Et. apply post_form_loop_trace in Et as (evs' & Hh & Hg & _).
  simpl in Hf. rewrite Hh in Hf. apply app_inv_head in Hf as ->.
  exists evs. split.
  - destruct out as [data|e]; [|exact Hh].
    destruct (get data "access_token") as [token|e]; [|exact Hh].
    destruct (truthy token); exact Hh.
  - exact Hg.
Qed.

Lemma headers_state s :
  truthy (_access_token s) = false ->
  (_headers s).2 = (get_access_token false s).2.
Proof.
  intros T. unfold _headers, bind. rewrite T. simpl.
  destruct (get_access_token false s) as [[tok|e] s1]; reflexivity.
Qed.

(** X12: no GET without a token.  A client that holds no token opens every
    [_get] with the client-credentials POST to the authorization URL; when
    that exchange raises, [_get] raises the same exception and has sent no
    GET at all. *)
Theorem no_get_without_token (url : string) (params : gmap string Json)
    (s : AmadeusClient) :
  truthy (_access_token s) = false ->
  (exists evs,
      history (_get url params s).2 =
        history s ++
          Call (POST AMADEUS_AUTH_URL (credentials_form s) (timeout s))
               (answer s (POST AMADEUS_AUTH_URL (credentials_form s)
                               (timeout s)))
          :: evs) /\
  (forall e s1,
      get_access_token false s = (Raise e, s1) ->
      _get url params s = (Raise e, s1) /\
      exists evs, history s1 = history s ++ evs /\ gets evs = []).
Proof.
  intros T. destruct (get_access_token_opens s T) as (evs & Hh & Hg).
  rewrite <- (headers_state s T) in Hh. split.
  - unfold _get. rewrite range_attempts.
    destruct (_headers s) as [[hdr|e] s1] eqn:Eh; simpl in Hh.
    + rewrite (get_loop_headers _ _ _ _ _ _ _ Eh).
      destruct (get_loop_grows url params [1; 2; 3] s1) as [evs' Hb].
      eexists. rewrite Hb, Hh, <- app_assoc. reflexivity.
    + rewrite get_loop_step, Eh. simpl. eauto.
  - intros e s1 He.
    assert (Eh : _headers s = (Raise e, s1)).
    { unfold _headers, bind. rewrite T. cbn [negb]. rewrite He. reflexivity. }
    rewrite Eh in Hh. simpl in Hh. split.
    + unfold _get. rewrite range_attempts, get_loop_step, Eh. reflexivity.
    + eexists. split; [exact Hh | exact Hg].
Qed.

Lemma no_get_without_token_witness :
  _get "/v1/hotels" ∅ unavailable_client
    = (Raise (AmadeusAuthError (AuthRequestFailed 503 "body")),
       (get_access_token false unavailable_client).2).
Proof.
  destruct (no_get_without_token "/v1/hotels" ∅ unavailable_client eq_refl)
    as [_ H].
  destruct (H (AmadeusAuthError (AuthRequestFailed 503 "body"))
              (get_access_token false unavailable_client).2 eq_refl)
    as [Hget _].
  exact Hget.
Defined.


(** ** Hotel lists *)

Lemma slice_to_prefix {A} (l : list A) stop : slice_to l stop `prefix_of` l.
Proof. apply prefix_take. Qed.

Lemma slice_to_length {A} (l : list A) stop :
  (0 <= stop -> length (slice_to l stop) = Nat.min (Z.to_nat stop) (length l)) /\
  (stop < 0 -> length (slice_to l stop) = (length l - Z.to_nat (- stop))%nat).
Proof.
  unfold slice_to, slice_stop. rewrite length_take.
  destruct (Z.leb_spec 0 stop); split; intros; lia.
Qed.

Lemma hotels_truncated (data : gmap string Json) stop r :
  getslice_to (default (JArr []) (data !! "data")) stop = Ok r ->
  (data !! "data" = None -> r = JArr []) /\
  (forall l, data !! "data" = Some (JArr l) -> r = JArr (slice_to l stop)).
Proof.
  intros H. split.
  - intros Hd. rewrite Hd in H. simpl in H. injection H as <-.
    unfold slice_to. rewrite take_nil. reflexivity.
  - intros l Hd. rewrite Hd in H. simpl in H. injection H as <-. reflexivity.
Qed.

Lemma lift_ok {A} (o : Outcome A) s r s' :
  lift o s = (Ok r, s') -> o = Ok r /\ s' = s.
Proof. destruct o; simpl; intros [= <- <-]; auto. Qed.

(** The two steps after the GET, on a body that is a JSON object. *)
Lemma hotels_of_body (body : Json) stop s r s' :
  (hotels <- lift (get_or body "data" (JArr [])) ;;
   lift (getslice_to hotels stop)) s = (Ok r, s') ->
  s' = s /\
  exists data, body = JObj data /\
    getslice_to (default (JArr []) (data !! "data")) stop = Ok r.
Proof.
  unfold bind. destruct body; simpl; try discriminate.
  intros H. apply lift_ok in H as [H ->]. eauto.
Qed.

(** X13: [get_hotels_by_city].  When the call returns, exactly one GET was
    answered 2xx with a JSON body, which is an object; it was sent with the
    upper-cased city code and [page[limit] = min(100, max_hotels)].  The
    result is the prefix [data[:max_hotels]] of the hotels of the body: at
    most [max_hotels] of them for [max_hotels >= 0], all but the last
    [-max_hotels] for a negative [max_hotels], and the empty list when the
    body has no [data].  A body whose [data] is [null] raises [TypeError],
    and a body that is no object raises [AttributeError]. *)
Theorem hotels_by_city_result (str_upper : string -> string) (city_code : string)
    (max_hotels : Z) (s : AmadeusClient) :
  (forall r s',
      get_hotels_by_city str_upper city_code max_hotels s = (Ok r, s') ->
      exists (data : gmap string Json) evs,
        history s' = history s ++ evs /\
        ok_gets evs =
          [(<["cityCode" := JStr (str_upper city_code)]>
            (<["page[limit]" := JInt (Z.min 100 max_hotels)]> ∅), JObj data)] /\
        (data !! "data" = None -> r = JArr []) /\
        (forall l, data !! "data" = Some (JArr l) ->
           r = JArr (slice_to l max_hotels) /\
           slice_to l max_hotels `prefix_of` l /\
           (0 <= max_hotels ->
            length (slice_to l max_hotels)
              = Nat.min (Z.to_nat max_hotels) (length l)) /\
           (max_hotels < 0 ->
            length (slice_to l max_hotels)
              = (length l - Z.to_nat (- max_hotels))%nat))) /\
  (forall data s1,
      _get (base_url s +:+ "/v1/reference-data/locations/hotels/by-city")
           (<["cityCode" := JStr (str_upper city_code)]>
            (<["page[limit]" := JInt (Z.min 100 max_hotels)]> ∅)) s
        = (Ok (JObj data), s1) ->
      data !! "data" = Some JNull ->
      get_hotels_by_city str_upper city_code max_hotels s
        = (Raise TypeError, s1)) /\
  (forall body s1,
      _get (base_url s +:+ "/v1/reference-data/locations/hotels/by-city")
           (<["cityCode" := JStr (str_upper city_code)]>
            (<["page[limit]" := JInt (Z.min 100 max_hotels)]> ∅)) s
        = (Ok body, s1) ->
      (forall data, body <> JObj data) ->
      get_hotels_by_city str_upper city_code max_hotels s
        = (Raise AttributeError, s1)).
Proof.
  split; [|split].
  - intros r s' H. unfold get_hotels_by_city in H. unfold bind in H at 1 2.
    destruct (_get _ _ s) as [[body|e] s1] eqn:Eg; [|discriminate].
    apply hotels_of_body in H as (-> & data & -> & Hs).
    apply get_ok in Eg as [_ (evs & Hh & Hg)].
    apply hotels_truncated in Hs as [Hnone Hlist].
    exists data, evs. repeat (split; [assumption|]).
    intros l Hl. split; [auto|]. split; [apply slice_to_prefix|].
    apply slice_to_length.
  - intros data s1 Eg Hd. unfold get_hotels_by_city, bind.
    rewrite Eg. simpl. rewrite Hd. reflexivity.
  - intros body s1 Eg Hb. unfold get_hotels_by_city, bind.
    rewrite Eg. destruct body; try reflexivity. destruct (Hb m). reflexivity.
Qed.

Lemma hotels_by_city_result_witness :
  exists r (data : gmap string Json),
    (get_hotels_by_city upper_az "nce" 2 (client_with_token listing_session)).1
      = Ok r /\
    (forall l, data !! "data" = Some (JArr l) -> r = JArr (slice_to l 2)).
Proof.
  destruct (hotels_by_city_result upper_az "nce" 2
              (client_with_token listing_session)) as [H _].
  destruct (get_hotels_by_city upper_az "nce" 2
              (client_with_token listing_session)) as [[r|e] s'] eqn:E.
  - destruct (H r s' eq_refl) as (data & evs & _ & _ & _ & Hl).
    exists r, data. split; [reflexivity|].
    intros l Hd. destruct (Hl l Hd) as [Hr _]. exact Hr.
  - apply (f_equal fst) in E. vm_compute in E. discriminate.
Defined.

Example hotels_by_city_sample :
  (get_hotels_by_city upper_az "nce" 2 (client_with_token listing_session)).1
    = Ok (JArr (take 2 three_hotels)) /\
  (get_hotels_by_city upper_az "nce" (-1) (client_with_token listing_session)).1
    = Ok (JArr (take 2 three_hotels)) /\
  (get_hotels_by_city upper_az "nce" 0 (client_with_token listing_session)).1
    = Ok (JArr []).
Proof. repeat split; vm_compute; reflexivity. Qed.

Example hotels_by_city_array_body :
  (get_hotels_by_city upper_az "nce" 2 array_client).1 = Raise AttributeError.
Proof. reflexivity. Qed.

(** X14: [get_hotels_by_geocode].  When the call returns, exactly one GET
    was answered 2xx with a JSON body, which is an object; it was sent with
    the formatted coordinates and the radius and without any page limit;
    the result is the prefix [data[:max_hotels]] of the hotels of the body,
    and the empty list when the body has no [data]. *)
Theorem hotels_by_geocode_result (format_6f : spec_float -> string)
    (lat lon : spec_float) (radius_km max_hotels : Z)
    (s s' : AmadeusClient) (r : Json) :
  get_hotels_by_geocode format_6f lat lon radius_km max_hotels s = (Ok r, s') ->
  exists params (data : gmap string Json) evs,
    history s' = history s ++ evs /\
    ok_gets evs = [(params, JObj data)] /\
    params !! "latitude" = Some (JStr (format_6f lat)) /\
    params !! "longitude" = Some (JStr (format_6f lon)) /\
    params !! "radius" = Some (JInt radius_km) /\
    params !! "page[limit]" = None /\
    (data !! "data" = None -> r = JArr []) /\
    (forall l, data !! "data" = Some (JArr l) ->
       r = JArr (slice_to l max_hotels) /\
       slice_to l max_hotels `prefix_of` l /\
       (0 <= max_hotels -> (length (slice_to l max_hotels)
                              <= Z.to_nat max_hotels)%nat)).
Proof.
  intros H. unfold get_hotels_by_geocode in H. unfold bind in H at 1 2.
  destruct (_get _ _ s) as [[body|e] s1] eqn:Eg; [|discriminate].
  apply hotels_of_body in H as (-> & data & -> & Hs).
  apply get_ok in Eg as [_ (evs & Hh & Hg)].
  apply hotels_truncated in Hs as [Hnone Hlist].
  eexists _, data, evs. split; [exact Hh|]. split; [exact Hg|].
  repeat (split; [reflexivity|]). split; [exact Hnone|].
  intros l Hl. split; [auto|]. split; [apply slice_to_prefix|].
  intros Hm. destruct (slice_to_length l max_hotels) as [Hlen _].
  rewrite (Hlen Hm). lia.
Qed.

Lemma hotels_by_geocode_result_witness :
  exists r,
    (get_hotels_by_geocode (fun _ => "43.710200") (S754_zero false)
       (S754_zero false) 7 20 (client_with_token listing_session)).1 = Ok r /\
    r = JArr three_hotels.
Proof.
  destruct (get_hotels_by_geocode (fun _ => "43.710200") (S754_zero false)
              (S754_zero false) 7 20 (client_with_token listing_session))
    as [[r|e] s'] eqn:E.
  - destruct (hotels_by_geocode_result _ _ _ _ _ _ _ _ E)
      as (params & data & evs & _ & _ & _ & _ & _ & _ & _ & _).
    exists r. split; [reflexivity|].
    apply (f_equal fst) in E. vm_compute in E. injection E as <-. reflexivity.
  - apply (f_equal fst) in E. vm_compute in E. discriminate.
Defined.

End lists_spec.

(* ================================================================== *)
(** * Further properties of [flatten_offers] *)
(* ================================================================== *)

Module flatten_more.
Import flatten vocab samples flatten_spec.

(** ** Loops that only append *)

Lemma ofold_appending {A} (body : list Row -> A -> Outcome (list Row)) :
  appending body -> appending (fun acc xs => ofold body acc xs).
Proof.
  intros Hb acc xs. revert acc. induction xs as [|x xs IH]; intros acc; simpl.
  - rewrite app_nil_r. reflexivity.
  - rewrite (Hb acc x). destruct (body [] x) as [new|e]; simpl; [|reflexivity].
    rewrite (IH (acc ++ new)), (IH new).
    destruct (ofold body [] xs) as [new'|e]; simpl; [|reflexivity].
    rewrite app_assoc. reflexivity.
Qed.

Lemma ofold_app {A} (body : list Row -> A -> Outcome (list Row)) xs ys :
  appending body ->
  ofold body [] (xs ++ ys) =
    (rows <-? ofold body [] xs ;; more <-? ofold body [] ys ;; Ok (rows ++ more)).
Proof.
  intros Hb. induction xs as [|x xs IH]; simpl.
  - destruct (ofold body [] ys); reflexivity.
  - destruct (body [] x) as [new|e]; simpl; [|reflexivity].
    rewrite (ofold_appending body Hb new (xs ++ ys)), IH.
    rewrite (ofold_appending body Hb new xs).
    destruct (ofold body [] xs) as [r1|e]; simpl; [|reflexivity].
    destruct (ofold body [] ys) as [r2|e]; simpl; [|reflexivity].
    rewrite app_assoc. reflexivity.
Qed.

Lemma appending_offer (read : DateReader) hotel_id :
  appending (fun (rows : list Row) offer =>
               row <-? offer_row read hotel_id offer ;; Ok (rows ++ [row])).
Proof. intros acc offer. destruct (offer_row read hotel_id offer); reflexivity. Qed.

Lemma appending_entry_rows (read : DateReader) : appending (entry_rows read).
Proof.
  intros acc entry. unfold entry_rows.
  destruct (get_or entry "hotel" (JObj ∅)) as [hotel|e]; simpl; [|reflexivity].
  destruct (get hotel "hotelId") as [hotel_id|e]; simpl; [|reflexivity].
  destruct (get_or entry "offers" (JArr [])) as [offers|e]; simpl; [|reflexivity].
  destruct (iter offers) as [l|e]; simpl; [|reflexivity].
  apply (ofold_appending _ (appending_offer read hotel_id)).
Qed.

Lemma appending_batch_rows (read : DateReader) : appending (batch_rows read).
Proof.
  intros acc batch. unfold batch_rows.
  destruct (get_or batch "response" (JObj ∅)) as [response|e]; simpl;
    [|reflexivity].
  destruct (get_or response "data" (JArr [])) as [data|e]; simpl; [|reflexivity].
  destruct (iter data) as [l|e]; simpl; [|reflexivity].
  apply (ofold_appending _ (appending_entry_rows read)).
Qed.

(** X15: [flatten_offers] is a homomorphism on the batch list.  Flattening
    [b1 + b2] gives the rows of [b1] followed by the rows of [b2], and
    raises what the first failing part raises; the keys of the payload
    other than [batches] play no role. *)
Theorem flatten_offers_app (read : DateReader)
    (raw : gmap string Json) (b1 b2 : list Json) :
  flatten_offers read (<["batches" := JArr (b1 ++ b2)]> raw) =
    (rows <-? flatten_offers read (<["batches" := JArr b1]> raw) ;;
     more <-? flatten_offers read {["batches" := JArr b2]} ;;
     Ok (rows ++ more)).
Proof.
  unfold flatten_offers. rewrite !lookup_insert_eq, lookup_singleton_eq. simpl.
  apply ofold_app, appending_batch_rows.
Qed.

(** ** The rows and the offers they come from *)

Lemma offer_rows_pairs (read : DateReader) hotel_id offers rows :
  ofold (fun (rows : list Row) offer =>
           row <-? offer_row read hotel_id offer ;; Ok (rows ++ [row])) [] offers
    = Ok rows ->
  Forall2 (fun p row => offer_row read p.1 p.2 = Ok row)
          ((fun offer => (hotel_id, offer)) <$> offers) rows.
Proof.
  revert rows. induction offers as [|o os IH]; intros rows H; simpl in H.
  - injection H as <-. constructor.
  - destruct (offer_row read hotel_id o) as [row|e] eqn:E; [|discriminate].
    simpl in H. rewrite (ofold_appending _ (appending_offer read hotel_id)) in H.
    destruct (ofold _ [] os) as [more|e]; [|discriminate].
    injection H as <-. constructor; [exact E | auto].
Qed.

Lemma entry_rows_pairs (read : DateReader) entry rows :
  entry_rows read [] entry = Ok rows ->
  Forall2 (fun p row => offer_row read p.1 p.2 = Ok row)
          ((fun offer => (hotel_id_of entry, offer)) <$> offers_of entry) rows.
Proof.
  unfold entry_rows, hotel_id_of, offers_of, items.
  destruct (get_or entry "hotel" (JObj ∅)) as [hotel|e]; simpl; [|discriminate].
  destruct (get hotel "hotelId") as [hotel_id|e]; simpl; [|discriminate].
  destruct (get_or entry "offers" (JArr [])) as [offers|e]; simpl; [|discriminate].
  destruct (iter offers) as [l|e]; simpl; [|discriminate].
  apply offer_rows_pairs.
Qed.

Lemma entries_rows_pairs (read : DateReader) entries rows :
  ofold (entry_rows read) [] entries = Ok rows ->
  Forall2 (fun p row => offer_row read p.1 p.2 = Ok row)
          (entry ← entries;
           (fun offer => (hotel_id_of entry, offer)) <$> offers_of entry) rows.
Proof.
  revert rows. induction entries as [|en ens IH]; intros rows H; simpl in H.
  - injection H as <-. constructor.
  - destruct (entry_rows read [] en) as [new|e] eqn:E; [|discriminate]. simpl in H.
    rewrite (ofold_appending _ (appending_entry_rows read)) in H.
    destruct (ofold (entry_rows read) [] ens) as [more|e]; [|discriminate].
    injection H as <-. simpl.
    apply Forall2_app; [apply entry_rows_pairs, E | auto].
Qed.

Lemma batch_rows_pairs (read : DateReader) batch rows :
  batch_rows read [] batch = Ok rows ->
  Forall2 (fun p row => offer_row read p.1 p.2 = Ok row)
          (entry ← entries_of batch;
           (fun offer => (hotel_id_of entry, offer)) <$> offers_of entry) rows.
Proof.
  unfold batch_rows, entries_of, items.
  destruct (get_or batch "response" (JObj ∅)) as [response|e]; simpl;
    [|discriminate].
  destruct (get_or response "data" (JArr [])) as [data|e]; simpl; [|discriminate].
  destruct (iter data) as [l|e]; simpl; [|discriminate].
  apply entries_rows_pairs.
Qed.

Lemma batches_rows_pairs (read : DateReader) batches rows :
  ofold (batch_rows read) [] batches = Ok rows ->
  Forall2 (fun p row => offer_row read p.1 p.2 = Ok row) (offer_pairs batches) rows.
Proof.
  revert rows. induction batches as [|b bs IH]; intros rows H; simpl in H.
  - injection H as <-. constructor.
  - destruct (batch_rows read [] b) as [new|e] eqn:E; [|discriminate]. simpl in H.
    rewrite (ofold_appending _ (appending_batch_rows read)) in H.
    destruct (ofold (batch_rows read) [] bs) as [more|e]; [|discriminate].
    injection H as <-. unfold offer_pairs. simpl.
    apply Forall2_app; [apply batch_rows_pairs, E | apply IH; reflexivity].
Qed.

Lemma offer_row_fields (read : DateReader) hotel_id offer row :
  offer_row read hotel_id offer = Ok row ->
  hotelId row = hotel_id /\ well_typed row.
Proof.
  unfold offer_row.
  destruct (get offer "checkInDate") as [ci|e]; simpl; [|discriminate].
  destruct (get offer "checkOutDate") as [co|e]; simpl; [|discriminate].
  destruct (price_field offer "total") as [t|e]; simpl; [|discriminate].
  destruct (price_field offer "currency") as [c|e]; simpl; [|discriminate].
  destruct (refundable_of offer) as [flag|e] eqn:Ef; simpl; [|discriminate].
  intros [= <-]. split; [reflexivity|]. split; simpl.
  - destruct (nights_of_total read ci co) as [->|(d1 & d2 & _ & _ & ->)]; eauto.
  - unfold refundable_of in Ef.
    destruct (get_or offer "policies" (JObj ∅)) as [p|e]; simpl in Ef;
      [|discriminate].
    destruct (contains p "refundable") as [[]|e]; simpl in Ef; [| |discriminate].
    + destruct (getitem p "refundable") as [en|e]; simpl in Ef; [|discriminate].
      destruct (get en "cancellationRefund") as [v|e]; simpl in Ef;
        [|discriminate].
      injection Ef as <-. eauto.
    + injection Ef as <-. auto.
Qed.

(** X16: the rows are the offers, in order.  When [flatten_offers] returns,
    its rows correspond one to one, in the order of the payload, to the
    offers of the entries of the batches: each row is the row of its offer
    and carries the [hotelId] of the entry the offer belongs to.  In
    particular there are as many rows as offers. *)
Theorem flatten_rows_in_order (read : DateReader)
    (raw : gmap string Json) (rows : list Row) :
  flatten_offers read raw = Ok rows ->
  Forall2 (fun p row => offer_row read p.1 p.2 = Ok row /\ hotelId row = p.1)
          (offer_pairs (items (default (JArr []) (raw !! "batches")))) rows /\
  length rows
    = length (offer_pairs (items (default (JArr []) (raw !! "batches")))).
Proof.
  unfold flatten_offers, items. intros H.
  destruct (iter (default (JArr []) (raw !! "batches"))) as [bs|e];
    simpl in H; [|discriminate].
  apply batches_rows_pairs in H. split.
  - eapply Forall2_impl; [exact H|]. intros p row Hr. split; [exact Hr|].
    apply offer_row_fields in Hr as [Hr _]. exact Hr.
  - symmetry. eapply Forall2_length, H.
Qed.

Lemma flatten_rows_in_order_witness :
  exists rows,
    flatten_offers read_ymd
      {["batches" := JArr [JObj {["response" := JObj {["data" := JArr
         [JObj (<["hotel" := JObj {["hotelId" := JStr "HNNCE001"]}]>
                {["offers" := JArr [JObj sample_offer;
                                    JObj bare_refundable_offer]]})]]}]}]]}
      = Ok rows /\
    length rows = 2%nat.
Proof.
  eexists. split; [vm_compute; reflexivity|].
  match goal with |- length ?rows = _ =>
    destruct (flatten_rows_in_order read_ymd
      {["batches" := JArr [JObj {["response" := JObj {["data" := JArr
         [JObj (<["hotel" := JObj {["hotelId" := JStr "HNNCE001"]}]>
                {["offers" := JArr [JObj sample_offer;
                                    JObj bare_refundable_offer]]})]]}]}]]}
      rows) as [_ Hlen]
  end; [vm_compute; reflexivity|].
  rewrite Hlen. reflexivity.
Defined.

(** X17: the types of the derived columns.  In every row [flatten_offers]
    returns, [nights] is [None] or an int and [refundable] is [None] or a
    bool, whatever the payload holds in the date and policy fields. *)
Theorem flatten_rows_well_typed (read : DateReader)
    (raw : gmap string Json) (rows : list Row) :
  flatten_offers read raw = Ok rows -> Forall well_typed rows.
Proof.
  unfold flatten_offers. intros H.
  destruct (iter (default (JArr []) (raw !! "batches"))) as [bs|e];
    simpl in H; [|discriminate].
  apply batches_rows_pairs in H.
  induction H as [|p row ps rows Hr _ IH]; constructor; [|exact IH].
  apply offer_row_fields in Hr as [_ Hr]. exact Hr.
Qed.

Lemma flatten_rows_well_typed_witness :
  Forall well_typed
    [ {| hotelId := JNull; checkInDate := JStr "2025-09-22";
         nights := JInt (-2); totalPrice := JNull; currency := JNull;
         refundable := JBool true |} ].
Proof.
  apply (flatten_rows_well_typed read_ymd
           {["batches" := JArr [JObj {["response" := JObj {["data" := JArr
              [JObj {["offers" := JArr [JObj bare_refundable_offer]]}]]}]}]]}).
  vm_compute. reflexivity.
Defined.

End flatten_more.

Module flatten_edges.
Import flatten vocab samples flatten_spec.
Import amadeus_client client_facts offers_spec.



(** ** The sign of [nights] *)

Lemma toordinal_lt (a b : date) :
  valid_date a = true -> valid_date b = true ->
  date_le b a = false -> toordinal a < toordinal b.
Proof.
  unfold valid_date, date_le, toordinal.
  destruct a as [ya ma da], b as [yb mb db]; simpl.
  intros Ha Hb Hlt.
  assert (Ha' : days_before_month ya ma + da <= days_before_month ya (ma + 1)).
  { rewrite days_before_month_succ by lia. lia. }
  assert (Hb' : 0 <= days_before_month yb mb).
  { rewrite <- (days_before_month_1 yb). apply days_before_month_mono; lia. }
  destruct (Z.lt_trichotomy ya yb) as [Hy|[Hy|Hy]].
  - pose proof (days_before_month_mono ya (ma + 1) 13
                  ltac:(lia) ltac:(lia) ltac:(lia)) as H13.
    rewrite days_before_month_13 in H13.
    pose proof (days_before_year_succ ya) as Hs.
    pose proof (days_before_year_mono (ya + 1) yb ltac:(lia)).
    lia.
  - subst yb. destruct (Z.lt_trichotomy ma mb) as [Hm|[Hm|Hm]].
    + pose proof (days_before_month_mono ya (ma + 1) mb
                    ltac:(lia) ltac:(lia) ltac:(lia)). lia.
    + subst mb. lia.
    + lia.
  - lia.
Qed.

(** X19: the sign of [nights].  When both dates parse, [nights] is positive
    exactly when check-out is after check-in and zero exactly when the two
    dates are equal, and swapping the two dates negates it. *)
Theorem nights_sign (read : DateReader)
    (check_in check_out : Json) (ci co : date) :
  date_of_json read check_in = Ok ci ->
  date_of_json read check_out = Ok co ->
  exists n,
    nights_of read check_in check_out = JInt n /\
    nights_of read check_out check_in = JInt (- n) /\
    (0 < n <-> date_le co ci = false) /\
    (n = 0 <-> co = ci).
Proof.
  intros Hi Ho. exists (toordinal co - toordinal ci).
  pose proof (date_of_json_valid _ _ _ Hi) as Vi.
  pose proof (date_of_json_valid _ _ _ Ho) as Vo.
  split; [apply nights_of_parsed; assumption|].
  split; [rewrite (nights_of_parsed _ _ _ _ _ Ho Hi); f_equal; lia|].
  split.
  - split; intros H.
    + destruct (date_le co ci) eqn:E; [|reflexivity].
      pose proof (toordinal_mono co ci Vo Vi E). lia.
    + pose proof (toordinal_lt ci co Vi Vo H). lia.
  - split; intros H; [|subst; lia].
    destruct (date_le co ci) eqn:E1.
    + destruct (date_le ci co) eqn:E2.
      * revert E1 E2. unfold date_le. destruct ci, co; simpl. intros.
        f_equal; lia.
      * pose proof (toordinal_lt co ci Vo Vi E2). lia.
    + pose proof (toordinal_lt ci co Vi Vo E1). lia.
Qed.

Lemma nights_sign_witness :
  nights_of read_ymd (JStr "2024-02-28") (JStr "2024-03-01") = JInt 2 /\
  nights_of read_ymd (JStr "2024-03-01") (JStr "2024-02-28") = JInt (-2).
Proof.
  destruct (nights_sign read_ymd (JStr "2024-02-28") (JStr "2024-03-01")
              {| year := 2024; month := 2; day := 28 |}
              {| year := 2024; month := 3; day := 1 |} eq_refl eq_refl)
    as (n & H1 & H2 & _).
  assert (n = 2) as -> by (vm_compute in H1; congruence).
  split; assumption.
Defined.

(** ** Flattening what was fetched *)

Lemma batch_rows_response (read : DateReader) rows chunk resp :
  batch_rows read rows (batch chunk resp) =
  batch_rows read rows (JObj {["response" := resp]}).
Proof.
  unfold batch_rows, batch. simpl.
  rewrite lookup_insert_ne, lookup_insert_eq, lookup_singleton_eq by discriminate.
  reflexivity.
Qed.

Lemma ofold_batches (read : DateReader) rows chunks resps :
  length resps = length chunks ->
  ofold (batch_rows read) rows (zip_with batch chunks resps) =
  ofold (batch_rows read) rows
    ((fun resp => JObj {["response" := resp]}) <$> resps).
Proof.
  revert rows resps. induction chunks as [|c cs IH]; intros rows [|r rs] Hl;
    try discriminate; [reflexivity|].
  simpl. rewrite batch_rows_response.
  destruct (batch_rows read rows _); simpl; [|reflexivity].
  apply IH. simpl in Hl. congruence.
Qed.

(** X20: flattening what was fetched.  The payload [get_hotel_offers]
    returns is a dict, and [flatten_offers] reads from it nothing but the
    bodies of the GETs that gave one, in the order they were answered;
    [request_hotel_ids] plays no role. *)
Theorem flatten_what_was_fetched (read : DateReader)
    (hotel_ids : list string) (check_in : string)
    (nights adults rooms : Z) (currency : option string)
    (s s' : AmadeusClient) (r : Json) :
  get_hotel_offers hotel_ids check_in nights adults rooms currency s = (Ok r, s') ->
  exists raw evs,
    r = JObj raw /\
    history s' = history s ++ evs /\
    flatten_offers read raw =
      ofold (batch_rows read) []
        ((fun resp => JObj {["response" := resp]}) <$> (ok_gets evs).*2).
Proof.
  intros H. unfold get_hotel_offers in H.
  case_bool_decide as Hnil.
  - injection H as <- <-. eexists _, []. rewrite app_nil_r.
    split; [reflexivity|]. split; reflexivity.
  - destruct (_chunks hotel_ids 20) as [chunks|e]; [|discriminate].
    unfold bind in H.
    destruct (offers_loop _ _ _ _ _ _ _ s) as [[bs|e] s1] eqn:El; [|discriminate].
    injection H as <- <-.
    apply offers_loop_ok in El as (resps & Hl & -> & _ & evs & Hh & Hg).
    eexists _, evs. split; [reflexivity|]. split; [exact Hh|].
    unfold flatten_offers. rewrite lookup_singleton_eq. simpl.
    rewrite Hg, snd_zip by (rewrite length_fmap; lia).
    apply ofold_batches, Hl.
Qed.

Lemma flatten_what_was_fetched_witness :
  exists raw,
    (get_hotel_offers ["HNNCE001"] "2025-09-20" 1 1 1 None
       (client_with_token healthy_session)).1 = Ok (JObj raw) /\
    exists rows, flatten_offers read_ymd raw = rows.
Proof.
  destruct (get_hotel_offers ["HNNCE001"] "2025-09-20" 1 1 1 None
              (client_with_token healthy_session)) as [[r|e] s'] eqn:E.
  - destruct (flatten_what_was_fetched read_ymd _ _ _ _ _ _ _ _ _ E)
      as (raw & evs & -> & _ & Hf).
    exists raw. split; [reflexivity|]. eauto.
  - apply (f_equal fst) in E. vm_compute in E. discriminate.
Defined.

End flatten_edges.
